(** * rpget: a shallow embedding of the tar extractor, the manifest parser,
      the cache-host ordering and the download strategies, with the
      properties the specification states about them.

    Layout: definitions first (one module per Go package), theorems after.

    Conventions.
    - Go [string] is [string]; Go [int], [int64] are [Z] (64-bit, the
      wrap-around written where the code can reach it); [os.FileMode] is a
      32-bit [Z]; a byte is [Byte.byte].
    - A Go function returning [error] returns [result]; a function that
      touches the filesystem runs in the monad [proc.M], which threads the
      process state and keeps what was done before a failure.  The text of
      an error is its fixed part, without the formatted arguments.
    - Standard-library iterators ([archive/tar]'s [Reader.Next],
      [bufio.Scanner.Scan]) are represented by the sequence of values they
      hand to the loop that drives them.
    - Logging calls are left out, except the warning of [parseManifest],
      which the specification mentions. *)

From Stdlib Require Import ZArith String Ascii List Lia Bool.
From stdpp Require Import gmap strings list pretty.

Open Scope string_scope.
Open Scope Z_scope.

(** ** Errors and results *)

(** Go [error] values.  [Errorf msg] is [fmt.Errorf] without [%w],
    [Wrapf msg e] is [fmt.Errorf] that wraps [e] with [%w]. *)
Inductive error : Type :=
| ErrZipSlip
| ErrEmptyHeaderName
| ErrDupeURLDestCombo
| ErrNotExist
| ErrExist
| ErrNotDir
| ErrIsDir
| ErrNotEmpty
| ErrInvalid
| ErrReader (msg : string)
| ErrSyntax (msg : string)
| ErrRange (msg : string)
| ErrUnexpectedHTTPStatus (status : Z)
| Errorf (msg : string)
| Wrapf (msg : string) (wrapped : error).

Inductive result (A : Type) : Type :=
| Ok (a : A)
| Err (e : error).
Arguments Ok {A} a.
Arguments Err {A} e.

Definition is_ok {A} (r : result A) : bool :=
  match r with Ok _ => true | Err _ => false end.

Definition is_err {A} (r : result A) : bool := negb (is_ok r).

#[global] Instance error_eq_dec : EqDecision error.
Proof. solve_decision. Defined.

(** [errors.Is]: walk the [%w] chain. *)
Fixpoint errors_Is (e target : error) : bool :=
  bool_decide (e = target) ||
  match e with
  | Wrapf _ w => errors_Is w target
  | _ => false
  end.

(** ** package strings *)
Module strings.

Definition HasPrefix (s pre : string) : bool := String.prefix pre s.

Fixpoint strip_suffix (l suf : list ascii) : option (list ascii) :=
  if decide (l = suf) then Some []
  else match l with
       | [] => None
       | c :: r => cons c <$> strip_suffix r suf
       end.

Definition TrimSuffix (s suf : string) : string :=
  match strip_suffix (list_ascii_of_string s) (list_ascii_of_string suf) with
  | Some l => string_of_list_ascii l
  | None => s
  end.

(** ASCII white space, the set [strings.Fields] and [strings.TrimSpace] use
    on input without bytes above 0x7f. *)
Definition isSpace (c : ascii) : bool :=
  let n := nat_of_ascii c in
  (Nat.eqb n 9 || Nat.eqb n 10 || Nat.eqb n 11 || Nat.eqb n 12
   || Nat.eqb n 13 || Nat.eqb n 32)%bool.

(** [fields_go cur l]: [cur] is the field being read, reversed. *)
Fixpoint fields_go (cur : list ascii) (l : list ascii) : list string :=
  let flush := match cur with
               | [] => []
               | _ => [string_of_list_ascii (rev cur)]
               end in
  match l with
  | [] => flush
  | c :: r => if isSpace c then flush ++ fields_go [] r
              else fields_go (c :: cur) r
  end.

Definition Fields (s : string) : list string :=
  fields_go [] (list_ascii_of_string s).

Fixpoint trim_left (l : list ascii) : list ascii :=
  match l with
  | c :: r => if isSpace c then trim_left r else l
  | [] => []
  end.

Definition TrimSpace (s : string) : string :=
  string_of_list_ascii
    (rev (trim_left (rev (trim_left (list_ascii_of_string s))))).

End strings.

(** ** The process: filesystem, working directory, call log *)
Module proc.

Inductive node : Type :=
| NDir (perm : Z)
| NFile (perm : Z) (content : list Byte.byte)
| NSymlink (target : string).

(** Every filesystem call the code makes, with its arguments. *)
Inductive syscall : Type :=
| SysMkdirAll (path : string) (perm : Z)
| SysOpenFile (path : string) (flag : Z) (perm : Z)
| SysWrite (path : string) (data : list Byte.byte)
| SysClose (path : string)
| SysRemove (path : string)
| SysLink (oldname newname : string)
| SysSymlink (oldname newname : string).

(** The filesystem maps absolute, cleaned paths to nodes; the root always
    exists.  Paths are resolved lexically: a symbolic link is stored with
    its target text and is never followed.  A hard link is a second name
    for a copy of the node.  A node keeps the mode bits of the system call
    that made it; the umask is not applied.  [calls] lists the calls made
    so far, oldest first. *)
Record state : Type := mkState {
  fs : gmap string node;
  cwd : option string;
  calls : list syscall
}.

Definition M (A : Type) : Type := state -> result A * state.

Definition ret {A} (a : A) : M A := fun s => (Ok a, s).
Definition fail {A} (e : error) : M A := fun s => (Err e, s).
Definition bind {A B} (m : M A) (k : A -> M B) : M B :=
  fun s => match m s with
           | (Ok a, s') => k a s'
           | (Err e, s') => (Err e, s')
           end.
Definition lift {A} (r : result A) : M A := fun s => (r, s).

(** Run [m] and hand its outcome to the caller ([if err != nil] with a
    body other than a plain return). *)
Definition try {A} (m : M A) : M (result A) :=
  fun s => let (r, s') := m s in (Ok r, s').

Definition record (c : syscall) : M unit :=
  fun s => (Ok tt, mkState (fs s) (cwd s) (calls s ++ [c])).

(** Run a pure filesystem transformer, keeping the filesystem on failure. *)
Definition on_fs (f : gmap string node -> result (gmap string node)) : M unit :=
  fun s => match f (fs s) with
           | Ok f' => (Ok tt, mkState f' (cwd s) (calls s))
           | Err e => (Err e, s)
           end.

(** [emits m P]: from any state, [m] appends some calls [new] to the log
    and ends with a result [r] such that [P r new]. *)
Definition emits {A} (m : M A) (P : result A -> list syscall -> Prop) : Prop :=
  forall s, exists new,
    calls (m s).2 = (calls s ++ new)%list /\ P (m s).1 new.

(** A computation that leaves the log alone. *)
Definition silent {A} (m : M A) : Prop := emits m (fun _ n => n = []).

(** Each call of package [os] logs itself once, whatever its outcome. *)
Definition logs {A} (m : M A) (c : syscall) : Prop :=
  emits m (fun _ n => n = [c]).

End proc.

Notation "'let*' x ':=' m 'in' k" := (proc.bind m (fun x => k))
  (at level 10, x name, m at level 100, k at level 200, only parsing).

(** ** package path/filepath (Unix) *)
Module filepath.

Definition Separator : ascii := "/"%char.

Fixpoint split_sep (l : list ascii) : list (list ascii) :=
  match l with
  | [] => [[]]
  | c :: r =>
      if Ascii.eqb c Separator then [] :: split_sep r
      else match split_sep r with
           | h :: t => (c :: h) :: t
           | [] => [[c]]
           end
  end.

Definition components (p : string) : list string :=
  string_of_list_ascii <$> split_sep (list_ascii_of_string p).

(** One step of the lexical clean-up: [stack] holds the kept elements, last
    one first. *)
Definition clean_step (rooted : bool) (stack : list string) (c : string)
  : list string :=
  if decide (c = "") then stack
  else if decide (c = ".") then stack
  else if decide (c = "..") then
    match stack with
    | top :: below =>
        if decide (top = "..") then c :: stack else below
    | [] => if rooted then [] else [c]
    end
  else c :: stack.

Definition IsAbs (p : string) : bool := strings.HasPrefix p "/".

(** [filepath.Clean]: collapse separators, drop [.], resolve inner [..],
    drop [..] at the root; the empty result is [.]. *)
Definition Clean (p : string) : string :=
  let rooted := IsAbs p in
  let kept := rev (fold_left (clean_step rooted) (components p) []) in
  let body := String.concat "/" kept in
  if rooted then "/" ++ body
  else if decide (body = "") then "." else body.

(** [filepath.Join] of two elements: empty leading elements are ignored,
    the rest is joined with the separator and cleaned. *)
Definition Join (a b : string) : string :=
  if decide (a = "") then
    if decide (b = "") then "" else Clean b
  else Clean (a ++ "/" ++ b).

(** Index one past the last separator of [l]. *)
Fixpoint upto_last_sep (l : list ascii) : list ascii :=
  match l with
  | [] => []
  | c :: r =>
      if existsb (Ascii.eqb Separator) l then c :: upto_last_sep r else []
  end.

(** [filepath.Dir]: everything up to the last separator, cleaned. *)
Definition Dir (p : string) : string :=
  Clean (string_of_list_ascii (upto_last_sep (list_ascii_of_string p))).

(** [os.Getwd], as [filepath.Abs] calls it. *)
Definition Getwd : proc.M string :=
  fun s => match proc.cwd s with
           | Some d => (Ok d, s)
           | None => (Err ErrNotExist, s)
           end.

(** [filepath.Abs]. *)
Definition Abs (p : string) : proc.M string :=
  if IsAbs p then proc.ret (Clean p)
  else let* wd := Getwd in proc.ret (Join wd p).

End filepath.


(** ** package os *)
Module os.
Import proc.

(** [os.FileMode] is a [uint32]. *)
Definition FileMode (m : Z) : Z := m mod 2 ^ 32.

Definition ModeSetuid : Z := Z.shiftl 1 23.
Definition ModeSetgid : Z := Z.shiftl 1 22.
Definition ModeSticky : Z := Z.shiftl 1 20.

Definition O_WRONLY : Z := 1.
Definition O_CREATE : Z := 64.
Definition O_TRUNC : Z := 512.

(** The literal [0755]. *)
Definition perm0755 : Z := 7 * 64 + 5 * 8 + 5.

(** [FileMode.Perm]: the nine permission bits. *)
Definition Perm (m : Z) : Z := Z.land m (7 * 64 + 7 * 8 + 7).

Definition S_ISUID : Z := 2048.
Definition S_ISGID : Z := 1024.
Definition S_ISVTX : Z := 512.

(** [syscallMode]: the mode bits handed to the system call for a
    [FileMode]. *)
Definition syscallMode (i : Z) : Z :=
  let o := Perm i in
  let o := if negb (Z.land i ModeSetuid =? 0) then Z.lor o S_ISUID else o in
  let o := if negb (Z.land i ModeSetgid =? 0) then Z.lor o S_ISGID else o in
  let o := if negb (Z.land i ModeSticky =? 0) then Z.lor o S_ISVTX else o in
  o.

Definition lookup_node (f : gmap string node) (k : string) : option node :=
  if decide (k = "/") then Some (NDir perm0755) else f !! k.

Definition is_dir (f : gmap string node) (k : string) : bool :=
  match lookup_node f k with Some (NDir _) => true | _ => false end.

(** What a failed lookup of the parent reports. *)
Definition parent_check (f : gmap string node) (k : string) : result unit :=
  match lookup_node f (filepath.Dir k) with
  | Some (NDir _) => Ok tt
  | Some _ => Err ErrNotDir
  | None => Err ErrNotExist
  end.

(** [os.Mkdir] on a resolved path. *)
Definition mkdir (k : string) (perm : Z) (f : gmap string node)
  : result (gmap string node) :=
  match parent_check f k with
  | Err e => Err e
  | Ok _ =>
      match lookup_node f k with
      | Some _ => Err ErrExist
      | None => Ok (<[k := NDir (syscallMode perm)]> f)
      end
  end.

(** [os.MkdirAll] on a resolved path: an existing directory is success, an
    existing non-directory is ENOTDIR, otherwise the parent is made first.
    [n] bounds the recursion by the number of path elements. *)
Fixpoint mkdir_all (n : nat) (k : string) (perm : Z) (f : gmap string node)
  : result (gmap string node) :=
  match lookup_node f k with
  | Some (NDir _) => Ok f
  | Some _ => Err ErrNotDir
  | None =>
      match n with
      | O => Err ErrInvalid
      | S n' =>
          match mkdir_all n' (filepath.Dir k) perm f with
          | Err e => Err e
          | Ok f' => mkdir k perm f'
          end
      end
  end.

Definition MkdirAll (path : string) (perm : Z) : M unit :=
  let* _ := record (SysMkdirAll path perm) in
  let* k := filepath.Abs path in
  on_fs (mkdir_all (String.length k) k perm).

(** [os.OpenFile] with [O_CREATE|O_WRONLY], with or without [O_TRUNC]; the
    handle is the name the file was opened under. *)
Definition open_file (k : string) (flag perm : Z) (f : gmap string node)
  : result (gmap string node) :=
  match parent_check f k with
  | Err e => Err e
  | Ok _ =>
      match lookup_node f k with
      | None =>
          if Z.testbit flag 6 then Ok (<[k := NFile (syscallMode perm) []]> f)
          else Err ErrNotExist
      | Some (NFile p c) =>
          if Z.testbit flag 9 then Ok (<[k := NFile p []]> f) else Ok f
      | Some (NDir _) => Err ErrIsDir
      | Some (NSymlink _) => Err ErrInvalid
      end
  end.

Definition OpenFile (path : string) (flag perm : Z) : M string :=
  let* _ := record (SysOpenFile path flag perm) in
  let* k := filepath.Abs path in
  let* _ := on_fs (open_file k flag perm) in
  ret path.

(** A write at offset 0 of a freshly opened file. *)
Definition write_file (k : string) (data : list Byte.byte) (f : gmap string node)
  : result (gmap string node) :=
  match f !! k with
  | Some (NFile p c) => Ok (<[k := NFile p (data ++ drop (length data) c)]> f)
  | _ => Err ErrInvalid
  end.

Definition Write (handle : string) (data : list Byte.byte) : M unit :=
  let* _ := record (SysWrite handle data) in
  let* k := filepath.Abs handle in
  on_fs (write_file k data).

Definition Close (handle : string) : M unit := record (SysClose handle).

Definition has_child (f : gmap string node) (k : string) : bool :=
  existsb (fun kv => strings.HasPrefix (fst kv) (k ++ "/")) (map_to_list f).

(** [os.Remove]: unlink a file or link, remove an empty directory. *)
Definition remove (k : string) (f : gmap string node)
  : result (gmap string node) :=
  match f !! k with
  | None => Err ErrNotExist
  | Some (NDir _) => if has_child f k then Err ErrNotEmpty else Ok (delete k f)
  | Some _ => Ok (delete k f)
  end.

Definition Remove (path : string) : M unit :=
  let* _ := record (SysRemove path) in
  let* k := filepath.Abs path in
  on_fs (remove k).

(** [os.Stat], error part: a missing name below a non-directory is
    ENOTDIR, any other missing name is ENOENT.  [n] bounds the walk. *)
Fixpoint stat (n : nat) (k : string) (f : gmap string node) : result unit :=
  match lookup_node f k with
  | Some _ => Ok tt
  | None =>
      match n with
      | O => Err ErrNotExist
      | S n' =>
          match lookup_node f (filepath.Dir k) with
          | Some (NDir _) => Err ErrNotExist
          | Some _ => Err ErrNotDir
          | None =>
              match stat n' (filepath.Dir k) f with
              | Err e => Err e
              | Ok _ => Err ErrNotExist
              end
          end
      end
  end.

Definition Stat (path : string) : M unit :=
  let* k := filepath.Abs path in
  fun s => (stat (String.length k) k (fs s), s).

Definition IsNotExist (e : error) : bool :=
  match e with ErrNotExist => true | _ => false end.

Definition link_node (ko kn : string) (f : gmap string node)
  : result (gmap string node) :=
  match f !! ko with
  | None => Err ErrNotExist
  | Some (NDir _) => Err ErrInvalid
  | Some n =>
      match parent_check f kn with
      | Err e => Err e
      | Ok _ =>
          match lookup_node f kn with
          | Some _ => Err ErrExist
          | None => Ok (<[kn := n]> f)
          end
      end
  end.

Definition Link (oldname newname : string) : M unit :=
  let* _ := record (SysLink oldname newname) in
  let* ko := filepath.Abs oldname in
  let* kn := filepath.Abs newname in
  on_fs (link_node ko kn).

Definition symlink_node (target kn : string) (f : gmap string node)
  : result (gmap string node) :=
  match parent_check f kn with
  | Err e => Err e
  | Ok _ =>
      match lookup_node f kn with
      | Some _ => Err ErrExist
      | None => Ok (<[kn := NSymlink target]> f)
      end
  end.

Definition Symlink (oldname newname : string) : M unit :=
  let* _ := record (SysSymlink oldname newname) in
  let* kn := filepath.Abs newname in
  on_fs (symlink_node oldname kn).

End os.

(** ** package archive/tar: what the reader hands out *)
Module tar.

Definition TypeReg : ascii := "0"%char.
Definition TypeLink : ascii := "1"%char.
Definition TypeSymlink : ascii := "2"%char.
Definition TypeDir : ascii := "5"%char.
Definition TypeXGlobalHeader : ascii := "g"%char.

(** The fields of [tar.Header] the extractor reads; [Mode] is an [int64]. *)
Record Header : Type := mkHeader {
  Typeflag : ascii;
  Name : string;
  Linkname : string;
  Mode : Z
}.

(** One successful [Next]: the header, the bytes [io.Copy] gets from the
    reader for this entry, and the error that ends the copy, if any. *)
Record entry : Type := mkEntry {
  header : Header;
  body : list Byte.byte;
  body_err : option error
}.

End tar.

(** ** package extract (pkg/extract/tar.go) *)
Module extract.
Import proc.

Record link : Type := mkLink {
  linkType : ascii;
  oldName : string;
  newName : string
}.

(** The input of [TarFile], as the function observes it.  [peekSize] and
    [detectFormat] live in a file of the package that is not part of the
    sources: their outcome is a field.
    - [peek_err]: the error of [r.Peek(peekSize)], if any;
    - [decompressor]: [None] when [detectFormat] finds no compression,
      [Some o] when it finds one, [o] being the error of [decompress];
    - [entries], [next_err]: the entries [Next] returns, then [io.EOF]
      ([None]) or another error;
    - [padding], [padding_err]: what [io.ReadAll(r)] returns once the tar
      reader has stopped at its end-of-archive marker. *)
Record archive : Type := mkArchive {
  peek_err : option error;
  decompressor : option (option error);
  entries : list tar.entry;
  next_err : option error;
  padding : list Byte.byte;
  padding_err : option error
}.

Definition cleanFileMode (mode : Z) : Z :=
  let mask := Z.lor (Z.lor os.ModeSticky os.ModeSetuid) os.ModeSetgid in
  Z.land mode (Z.lnot mask) mod 2 ^ 32.

Definition guardAgainstZipSlip (header : tar.Header) (destDir : string) : M unit :=
  if decide (tar.Name header = "") then fail ErrEmptyHeaderName
  else
    let* t := try (filepath.Abs (filepath.Join destDir (tar.Name header))) in
    match t with
    | Err err => fail (Wrapf "error getting absolute path of destDir" err)
    | Ok target =>
        let* d := try (filepath.Abs destDir) in
        match d with
        | Err err => fail (Wrapf "error getting absolute path" err)
        | Ok destAbs =>
            if negb (strings.HasPrefix target destAbs)
            then fail (Wrapf "outside of target directory" ErrZipSlip)
            else ret tt
        end
    end.

Definition createHardLink (oldName newName : string) (overwrite : bool) : M unit :=
  let* _ :=
    (if overwrite then
       let* r := try (os.Remove newName) in
       match r with
       | Err err =>
           if negb (os.IsNotExist err)
           then fail (Wrapf "error removing existing file" err)
           else ret tt
       | Ok _ => ret tt
       end
     else ret tt) in
  os.Link oldName newName.

Definition createSymlink (oldName newName : string) (overwrite : bool) : M unit :=
  let* _ :=
    (if overwrite then
       let* r := try (os.Remove newName) in
       match r with
       | Err err =>
           if negb (os.IsNotExist err)
           then fail (Wrapf "error removing existing symlink/file" err)
           else ret tt
       | Ok _ => ret tt
       end
     else ret tt) in
  os.Symlink oldName newName.

(** Wrap the error of [m], if any. *)
Definition wrap_err (msg : string) (m : M unit) : M unit :=
  let* r := try m in
  match r with
  | Err err => fail (Wrapf msg err)
  | Ok _ => ret tt
  end.

Fixpoint createLinks (links : list link) (destDir : string) (overwrite : bool)
  : M unit :=
  match links with
  | [] => ret tt
  | l :: rest =>
      let targetDir := filepath.Dir (newName l) in
      let* _ := os.MkdirAll targetDir os.perm0755 in
      let* _ :=
        (if Ascii.eqb (linkType l) tar.TypeLink then
           let oldPath := filepath.Join destDir (oldName l) in
           wrap_err "error creating hard link"
                    (createHardLink oldPath (newName l) overwrite)
         else if Ascii.eqb (linkType l) tar.TypeSymlink then
           wrap_err "error creating symlink"
                    (createSymlink (oldName l) (newName l) overwrite)
         else fail (Errorf "unsupported link type")) in
      createLinks rest destDir overwrite
  end.

(** [io.Copy(targetFile, tarReader)]. *)
Definition Copy (targetFile : string) (e : tar.entry) : M unit :=
  let* _ := os.Write targetFile (tar.body e) in
  match tar.body_err e with
  | Some err => fail err
  | None => ret tt
  end.

(** The body of the [for] loop of [TarFile] for one entry; the result is the
    link list after the entry. *)
Definition extractEntry (e : tar.entry) (destDir : string) (overwrite : bool)
    (links : list link) : M (list link) :=
  let header := tar.header e in
  let target := filepath.Join destDir (tar.Name header) in
  let targetDir := filepath.Dir target in
  let* _ := os.MkdirAll targetDir os.perm0755 in
  let* _ := guardAgainstZipSlip header destDir in
  let flag := tar.Typeflag header in
  if Ascii.eqb flag tar.TypeXGlobalHeader then ret links
  else if Ascii.eqb flag tar.TypeDir then
    let* _ := os.MkdirAll target (cleanFileMode (os.FileMode (tar.Mode header))) in
    ret links
  else if Ascii.eqb flag tar.TypeReg then
    let openFlags := Z.lor os.O_CREATE os.O_WRONLY in
    let openFlags := if overwrite then Z.lor openFlags os.O_TRUNC else openFlags in
    let* targetFile :=
      os.OpenFile target openFlags (cleanFileMode (os.FileMode (tar.Mode header))) in
    let* c := try (Copy targetFile e) in
    match c with
    | Err err => let* _ := os.Close targetFile in fail err
    | Ok _ =>
        let* _ := wrap_err "error closing file" (os.Close targetFile) in
        ret links
    end
  else if (Ascii.eqb flag tar.TypeSymlink || Ascii.eqb flag tar.TypeLink)%bool then
    ret (links ++ [mkLink flag (tar.Linkname header) target])%list
  else fail (Errorf "unsupported file type").

(** The [for] loop: [tarReader.Next()] until [io.EOF] or an error. *)
Fixpoint extractEntries (es : list tar.entry) (next_err : option error)
    (destDir : string) (overwrite : bool) (links : list link) : M (list link) :=
  match es with
  | [] =>
      match next_err with
      | None => ret links
      | Some err => fail err
      end
  | e :: rest =>
      let* links' := extractEntry e destDir overwrite links in
      extractEntries rest next_err destDir overwrite links'
  end.

Fixpoint checkPadding (padding : list Byte.byte) : result unit :=
  match padding with
  | [] => Ok tt
  | b :: rest =>
      if negb (Byte.eqb b Byte.x00)
      then Err (Errorf "unexpected non-null byte in padding")
      else checkPadding rest
  end.

Definition TarFile (r : archive) (destDir : string) (overwrite : bool) : M unit :=
  match peek_err r with
  | Some err => fail (Wrapf "error reading peek data" err)
  | None =>
      let* _ :=
        match decompressor r with
        | Some (Some err) => fail (Wrapf "error creating decompressed stream" err)
        | _ => ret tt
        end in
      let* links := extractEntries (entries r) (next_err r) destDir overwrite [] in
      let* _ := wrap_err "error creating links" (createLinks links destDir overwrite) in
      match padding_err r with
      | Some err => fail (Wrapf "error reading padding bytes" err)
      | None => lift (checkPadding (padding r))
      end
  end.

End extract.

(** ** package bufio: the line scanner *)
Module bufio.

Definition MaxScanTokenSize : N := 64 * 1024.

Definition dropCR (l : list ascii) : list ascii :=
  match rev l with
  | c :: r => if Ascii.eqb c "013"%char then rev r else l
  | [] => l
  end.

Fixpoint split_lines (l : list ascii) : list (list ascii) :=
  match l with
  | [] => [[]]
  | c :: r =>
      if Ascii.eqb c "010"%char then [] :: split_lines r
      else match split_lines r with
           | h :: t => (c :: h) :: t
           | [] => [[c]]
           end
  end.

Definition too_long (piece : list ascii) : bool :=
  (MaxScanTokenSize <=? N.of_nat (length piece))%N.

(** The tokens successive [Scan] calls deliver with the [ScanLines] split
    function: one per line, without the line end; nothing for an empty
    last piece; the scan stops (and [Scan] reports false) at a line that
    does not fit the buffer. *)
Fixpoint tokens (pieces : list (list ascii)) : list string :=
  match pieces with
  | [] => []
  | [last] =>
      match last with
      | [] => []
      | _ => if too_long last then [] else [string_of_list_ascii (dropCR last)]
      end
  | p :: rest =>
      if too_long p then []
      else string_of_list_ascii (dropCR p) :: tokens rest
  end.

(** [file] is the text the reader delivers before its end or its first
    error. *)
Definition Scan (file : string) : list string :=
  tokens (split_lines (list_ascii_of_string file)).

End bufio.

(** ** package rpget (pkg): the manifest *)
Module rpget.

Record ManifestEntry : Type := mkManifestEntry {
  URL : string;
  Dest : string
}.

#[global] Instance ManifestEntry_eq_dec : EqDecision ManifestEntry.
Proof. solve_decision. Defined.

Definition Manifest : Type := list ManifestEntry.

(** Modelled from the spec: [Manifest.AddEntry] is declared in a file that
    is not part of the sources; the manifest is an "ordered sequence of
    (url, destination) pairs" and [TestManifest_AddEntry] shows the new
    pair goes last. *)
Definition AddEntry (m : Manifest) (url dest : string) : Manifest :=
  (m ++ [mkManifestEntry url dest])%list.

End rpget.

(** ** package cli (pkg/cli/common.go) *)
Module cli.
Import proc.

(** The process-wide configuration ([viper]) as far as the code reads it. *)
Record config : Type := mkConfig {
  OptOutputConsumer : string;
  OptForce : bool
}.

Definition EnsureDestinationNotExist (cfg : config) (dest : string) : M unit :=
  let* r := try (os.Stat dest) in
  let not_exist := match r with
                   | Err err => os.IsNotExist err
                   | Ok _ => false
                   end in
  if (negb (OptForce cfg) && negb not_exist)%bool
  then fail (Errorf "destination already exists")
  else ret tt.

(** [net.SRV]: the fields the code reads; [Port] is a [uint16]. *)
Record SRV : Type := mkSRV {
  Target : string;
  Port : Z
}.

(** What a Go call does: return, or panic. *)
Inductive run (A : Type) : Type :=
| Return (r : result A)
| Panic (msg : string).
Arguments Return {A} r.
Arguments Panic {A} msg.

Definition isDigit (c : ascii) : bool :=
  let n := nat_of_ascii c in (Nat.leb 48 n && Nat.leb n 57)%bool.

Definition isLower (c : ascii) : bool :=
  let n := nat_of_ascii c in (Nat.leb 97 n && Nat.leb n 122)%bool.

(** The class [[a-z0-9-]]. *)
Definition inClass (c : ascii) : bool :=
  (isLower c || isDigit c || Ascii.eqb c "-"%char)%bool.

(** [([0-9]+)[.]] at the head of [l], the greedy way: take one more digit
    if the rest still matches, else stop and ask for the dot.  The result
    is the text of the group. *)
Fixpoint match_digits_dot (l : list ascii) : option (list ascii) :=
  match l with
  | c :: r =>
      if isDigit c then
        match match_digits_dot r with
        | Some ds => Some (c :: ds)
        | None =>
            match r with
            | d :: _ => if Ascii.eqb d "."%char then Some [c] else None
            | [] => None
            end
        end
      else None
  | [] => None
  end.

(** [-([0-9]+)[.]] at the head of [l]. *)
Definition match_dash_digits_dot (l : list ascii) : option (list ascii) :=
  match l with
  | c :: r => if Ascii.eqb c "-"%char then match_digits_dot r else None
  | [] => None
  end.

(** [hostnameIndexRegexp], [^[a-z0-9-]*-([0-9]+)[.]], matched at the start
    of [l] with the star greedy: one more character of the class if the
    rest still matches, else the rest of the pattern here. *)
Fixpoint match_hostname (l : list ascii) : option (list ascii) :=
  match l with
  | c :: r =>
      if inClass c then
        match match_hostname r with
        | Some g => Some g
        | None => match_dash_digits_dot l
        end
      else match_dash_digits_dot l
  | [] => match_dash_digits_dot l
  end.

(** [FindStringSubmatch], reduced to group 1. *)
Definition FindStringSubmatch (hostname : string) : option string :=
  string_of_list_ascii <$> match_hostname (list_ascii_of_string hostname).

Definition MaxInt64 : Z := 2 ^ 63 - 1.

Definition digit_value (c : ascii) : Z := Z.of_nat (nat_of_ascii c) - 48.

(** The decimal value of a string of digits. *)
Definition decimal (s : string) : Z :=
  fold_left (fun acc c => 10 * acc + digit_value c) (list_ascii_of_string s) 0.

(** [strconv.Atoi] on an unsigned decimal text, [int] being 64 bits. *)
Definition Atoi (s : string) : result Z :=
  if decide (s = "") then Err (ErrSyntax s)
  else if forallb isDigit (list_ascii_of_string s) then
    if decimal s <=? MaxInt64 then Ok (decimal s) else Err (ErrRange s)
  else Err (ErrSyntax s).

Definition cacheIndexFor (hostname : string) : result Z :=
  match FindStringSubmatch hostname with
  | None => Err (Errorf "couldn't parse hostname")
  | Some m => Atoi m
  end.

(** The first loop of [orderCacheHosts]. *)
Fixpoint highestIndexOf (srvs : list SRV) (highestIndex : Z) : result Z :=
  match srvs with
  | [] => Ok highestIndex
  | srv :: rest =>
      match cacheIndexFor (Target srv) with
      | Err err => Err err
      | Ok cacheIndex =>
          highestIndexOf rest
            (if highestIndex <? cacheIndex then cacheIndex else highestIndex)
      end
  end.

Definition hostnameOf (srv : SRV) : string :=
  let hostname := strings.TrimSuffix (Target srv) "." in
  if decide (Port srv = 80) then hostname
  else hostname ++ ":" ++ pretty (Port srv).

(** The second loop: [output[cacheIndex] = hostname]; an index outside the
    slice panics. *)
Fixpoint placeHosts (srvs : list SRV) (output : list string)
  : run (list string) :=
  match srvs with
  | [] => Return (Ok output)
  | srv :: rest =>
      match cacheIndexFor (Target srv) with
      | Err err => Return (Err err)
      | Ok cacheIndex =>
          if (0 <=? cacheIndex) && (cacheIndex <? Z.of_nat (length output))
          then placeHosts rest (<[Z.to_nat cacheIndex := hostnameOf srv]> output)
          else Panic "index out of range"
      end
  end.

(** The largest slice of strings [make] allocates (16 bytes an element,
    2^48 bytes at most); memory below that bound is taken to be there. *)
Definition maxStrings : Z := 2 ^ 44.

Definition orderCacheHosts (srvs : list SRV) : run (list string) :=
  match highestIndexOf srvs 0 with
  | Err err => Return (Err err)
  | Ok highestIndex =>
      let len := (highestIndex + 1 + 2 ^ 63) mod 2 ^ 64 - 2 ^ 63 in
      if (len <? 0) || (maxStrings <? len)
      then Panic "makeslice: len out of range"
      else placeHosts srvs (replicate (Z.to_nat len) "")
  end.

End cli.

(** ** package multifile (cmd/multifile/manifest.go) *)
Module multifile.
Import proc.

Section Manifest.

(** [config.ConsumerNull] and [net/url]'s [Parse] are not part of the
    sources. *)
Variable ConsumerNull : string.
Variable url_Parse : string -> result unit.

Definition parseLine (line : string) : result (string * string) :=
  match strings.Fields line with
  | [url; dest] => Ok (url, dest)
  | _ => Err (Errorf "error parsing manifest invalid line format")
  end.

Definition errDupeURLDestCombo : error := ErrDupeURLDestCombo.

Definition checkSeenDestinations (destinations : gmap string string)
    (dest url : string) : result unit :=
  match destinations !! dest with
  | Some seenURL =>
      if negb (bool_decide (seenURL = url))
      then Err (Errorf "duplicate destination with different urls")
      else Err errDupeURLDestCombo
  | None => Ok tt
  end.

(** A line of the warning log: the URL and the destination skipped. *)
Definition warning : Type := (string * string)%type.

(** The loop of [parseManifest] over the scanner's lines, carrying
    [seenDestinations], the manifest and the warnings logged. *)
Fixpoint parseLines (cfg : cli.config) (lines : list string)
    (seenDestinations : gmap string string) (manifest : rpget.Manifest)
    (warnings : list warning) : M (rpget.Manifest * list warning) :=
  match lines with
  | [] => ret (manifest, warnings)
  | text :: rest =>
      let line := strings.TrimSpace text in
      if decide (line = "") then
        parseLines cfg rest seenDestinations manifest warnings
      else
        let* ud := lift (parseLine line) in
        let url := fst ud in
        let dest := snd ud in
        let* _ := lift (url_Parse url) in
        let consumer := cli.OptOutputConsumer cfg in
        if negb (bool_decide (consumer = ConsumerNull)) then
          match checkSeenDestinations seenDestinations dest url with
          | Err err =>
              if errors_Is err errDupeURLDestCombo then
                parseLines cfg rest seenDestinations manifest
                           (warnings ++ [(url, dest)])%list
              else fail err
          | Ok _ =>
              let seenDestinations := <[dest := url]> seenDestinations in
              let* _ := cli.EnsureDestinationNotExist cfg dest in
              parseLines cfg rest seenDestinations
                         (rpget.AddEntry manifest url dest) warnings
          end
        else
          parseLines cfg rest seenDestinations
                     (rpget.AddEntry manifest url dest) warnings
  end.

Definition parseManifest (cfg : cli.config) (file : string)
  : M (rpget.Manifest * list warning) :=
  parseLines cfg (bufio.Scan file) ∅ [] [].

End Manifest.

End multifile.

(** ** The extractor, as the specification words it

    The calls the specification prescribes for an archive, written without
    the monad: what each entry costs while the stream is parsed, which
    links are queued, and what each queued link costs afterwards. *)
Module extract_spec.
Import proc.

Definition is_link (h : tar.Header) : bool :=
  (Ascii.eqb (tar.Typeflag h) tar.TypeSymlink
   || Ascii.eqb (tar.Typeflag h) tar.TypeLink)%bool.

(** The calls for one entry during the parse: the parent directory, then
    the directory or the file itself; nothing more for a link. *)
Definition entry_calls (destDir : string) (overwrite : bool) (e : tar.entry)
  : list syscall :=
  let h := tar.header e in
  let target := filepath.Join destDir (tar.Name h) in
  let mode := extract.cleanFileMode (os.FileMode (tar.Mode h)) in
  SysMkdirAll (filepath.Dir target) os.perm0755 ::
  (if Ascii.eqb (tar.Typeflag h) tar.TypeDir then [SysMkdirAll target mode]
   else if Ascii.eqb (tar.Typeflag h) tar.TypeReg then
     [SysOpenFile target
        (if overwrite
         then Z.lor (Z.lor os.O_CREATE os.O_WRONLY) os.O_TRUNC
         else Z.lor os.O_CREATE os.O_WRONLY) mode;
      SysWrite target (tar.body e);
      SysClose target]
   else []).

(** The queue element for a link entry: its type, [old_name] as the header
    has it, and [new_name], the entry's target. *)
Definition link_of (destDir : string) (e : tar.entry) : extract.link :=
  extract.mkLink (tar.Typeflag (tar.header e))
                 (tar.Linkname (tar.header e))
                 (filepath.Join destDir (tar.Name (tar.header e))).

(** The deferred queue: the link entries, in encounter order. *)
Fixpoint deferred (destDir : string) (es : list tar.entry) : list extract.link :=
  match es with
  | [] => []
  | e :: rest =>
      if is_link (tar.header e)
      then link_of destDir e :: deferred destDir rest
      else deferred destDir rest
  end.



(** The same archive with nothing after the end-of-archive marker. *)
Definition without_padding (r : extract.archive) : extract.archive :=
  extract.mkArchive (extract.peek_err r) (extract.decompressor r)
                    (extract.entries r) (extract.next_err r) [] None.

(** [p] lies in the tree below the directory [dir] (or is [dir]). *)
Definition inside (dir p : string) : bool :=
  bool_decide (p = dir) || strings.HasPrefix p (dir ++ "/").


(** The outcome of the loop body for one entry. *)
Definition entry_post (dest : string) (ow : bool) (e : tar.entry)
    (links : list extract.link) (r : result (list extract.link))
    (n : list syscall) : Prop :=
  n `prefix_of` entry_calls dest ow e /\
  match r with
  | Ok links' =>
      n = entry_calls dest ow e /\ links' = (links ++ deferred dest [e])%list
  | Err _ => True
  end.

(** The outcome of the parse loop. *)
Definition parse_post (dest : string) (ow : bool) (es : list tar.entry)
    (next_err : option error) (links : list extract.link)
    (r : result (list extract.link)) (n : list syscall) : Prop :=
  n `prefix_of` flat_map (entry_calls dest ow) es /\
  match r with
  | Ok links' =>
      n = flat_map (entry_calls dest ow) es /\
      links' = (links ++ deferred dest es)%list /\ next_err = None
  | Err _ => True
  end.



(** The destination and the starting filesystem of the examples: [/tmp]
    and [/tmp/out] exist, the working directory is the root. *)
Definition tmp_out : state :=
  mkState (<["/tmp" := NDir os.perm0755]>
             (<["/tmp/out" := NDir os.perm0755]> ∅))
          (Some "/") [].

Definition plain (es : list tar.entry) : extract.archive :=
  extract.mkArchive None None es None [] None.

Definition regular (name : string) : tar.entry :=
  tar.mkEntry (tar.mkHeader tar.TypeReg name "" 420) [Byte.x61] None.

Definition symbolic (name target : string) : tar.entry :=
  tar.mkEntry (tar.mkHeader tar.TypeSymlink name target 511) [] None.

End extract_spec.

(** ** The cache-host ordering, as the specification words it *)
Module cli_spec.

(** The target matches [hostnameIndexRegexp]. *)
Definition matches (target : string) : Prop :=
  is_Some (cli.FindStringSubmatch target).

(** The captured index, as the number its digits write. *)
Definition captured (target : string) : option Z :=
  cli.decimal <$> cli.FindStringSubmatch target.

Definition highest_captured (srvs : list cli.SRV) : Z :=
  foldr (fun srv h => Z.max (default 0 (captured (cli.Target srv))) h) 0 srvs.

(** The claim as the specification states it: a dense array of length
    highest index + 1 with every target's hostname at its index, for
    targets that all match; an error if one does not. *)
Definition dense_claim (srvs : list cli.SRV) : Prop :=
  (Forall (fun srv => matches (cli.Target srv)) srvs ->
   exists out,
     cli.orderCacheHosts srvs = cli.Return (Ok out) /\
     Z.of_nat (length out) = highest_captured srvs + 1 /\
     forall srv i,
       srv ∈ srvs -> captured (cli.Target srv) = Some i ->
       out !! Z.to_nat i = Some (cli.hostnameOf srv)) /\
  (Exists (fun srv => ~ matches (cli.Target srv)) srvs ->
   exists err, cli.orderCacheHosts srvs = cli.Return (Err err)).

(** The record's index is one the code can use: the target matches,
    [Atoi] accepts the digits, and the slice can be allocated. *)
Definition usable (srv : cli.SRV) : Prop :=
  exists i, cli.cacheIndexFor (cli.Target srv) = Ok i /\ i < cli.maxStrings.

Definition index_of (srv : cli.SRV) : Z :=
  match cli.cacheIndexFor (cli.Target srv) with
  | Ok i => i
  | Err _ => 0
  end.

Definition highest_index (srvs : list cli.SRV) : Z :=
  foldr (fun srv h => Z.max (index_of srv) h) 0 srvs.

(** The hostname of the last record with index [i], the empty string if
    there is none. *)
Definition host_at (srvs : list cli.SRV) (i : nat) : string :=
  default ""
    (last (cli.hostnameOf <$>
           filter (fun srv => index_of srv = Z.of_nat i) srvs)).

(** The second loop of [orderCacheHosts] as a fold. *)
Definition place (srvs : list cli.SRV) (out : list string) : list string :=
  foldl (fun o srv => <[Z.to_nat (index_of srv) := cli.hostnameOf srv]> o)
        out srvs.

End cli_spec.

(** ** The manifest, as the specification words it *)
Module multifile_spec.


(** "Duplicate (URL, DEST) pairs warn and skip": the pairs kept, given the
    pairs [seen] so far. *)
Fixpoint kept (seen pairs : list (string * string)) : list (string * string) :=
  match pairs with
  | [] => []
  | p :: rest =>
      if bool_decide (p ∈ seen) then kept seen rest
      else p :: kept (p :: seen) rest
  end.






(** A parser that accepts every URL, for the examples. *)
Definition accept_url (url : string) : result unit := Ok tt.

(** An empty filesystem with the root as working directory. *)
Definition empty_root : proc.state := proc.mkState ∅ (Some "/") [].

Definition newline : string := String "010"%char "".

End multifile_spec.

(** ** package download

    The two strategies are declared in files that are not part of the
    sources; only their tests are.  They are modelled from sections 4.1 to
    4.3 of the specification.  Retries happen inside the HTTP client, so
    a response here is what is left after them.  The workers of one
    object run independent requests and the ordered channel hands the
    reader chunk [i] at step [i]: the model issues the requests in index
    order and does not schedule them. *)
Module download.

(** Modelled from the spec: a URL, as [scheme://host/path]; the strategies
    are not part of the sources. *)
Record URL : Type := mkURL {
  scheme : string;
  host : string;
  path : string
}.

(** Modelled from the spec: "[url_base] is [scheme://host/path] without
    query". *)
Definition url_base (u : URL) : string :=
  scheme u ++ "://" ++ host u ++ path u.

(** Modelled from the spec: the response of [do_request], a status, a
    body and the total of its [Content-Range] header. *)
Record Response : Type := mkResponse {
  status : Z;
  body : list Byte.byte;
  total : nat
}.

(** Modelled from the spec: what the servers answer to a request of the
    bytes [range_start] to [range_end] of a URL. *)
Definition network : Type := URL -> nat -> nat -> Response.

(** Modelled from the spec: the options of section 3 the two strategies
    read. *)
Record Options : Type := mkOptions {
  max_concurrency : nat;
  chunk_size : nat;
  slice_size : nat;
  cache_hosts : list string;
  domains_to_cache : list string;
  retries : nat
}.

(** Modelled from the spec: "responses in the set {408, 425, 429, 500,
    502, 503, 504} trigger retry"; the client's file is not part of the
    sources. *)
Definition retriable (st : Z) : bool :=
  bool_decide (st ∈ [408; 425; 429; 500; 502; 503; 504]).

(** Modelled from the spec: the "retriable/5xx class" of a failed request,
    which sends the dispatcher to its fallback. *)
Definition fallback_class (st : Z) : bool :=
  retriable st || ((500 <=? st) && (st <? 600)).

(** Modelled from the spec: [do_request] of the HTTP client;
    "[ErrUnexpectedHTTPStatus] (status not in {200, 206}) is surfaced
    upward". *)
Definition do_request (net : network) (u : URL) (range_start range_end : nat)
  : result Response :=
  let resp := net u range_start range_end in
  if (status resp =? 200) || (status resp =? 206) then Ok resp
  else Err (ErrUnexpectedHTTPStatus (status resp)).

(** Modelled from the spec: the error sends the dispatcher to its
    fallback. *)
Definition is_fallback_error (e : error) : bool :=
  match e with
  | ErrUnexpectedHTTPStatus st => fallback_class st
  | _ => false
  end.

(** Modelled from the spec: the plan of a range [lo, hi) in pieces of
    [size] bytes, "chunk_count = ceil(size / chunk_size)" and chunk [i]
    from [i * chunk_size] to [min((i+1) * chunk_size, size) - 1],
    counted from [lo]. *)
Definition piece_count (size lo hi : nat) : nat :=
  ((hi - lo + size - 1) / size)%nat.

(** Modelled from the spec: chunk [i] of the plan. *)
Definition piece (size lo hi i : nat) : nat * nat :=
  ((lo + i * size)%nat, (Nat.min (lo + (i + 1) * size) hi - 1)%nat).

(** Modelled from the spec: all chunks of the plan, in index order. *)
Definition pieces (size lo hi : nat) : list (nat * nat) :=
  piece size lo hi <$> seq 0 (piece_count size lo hi).

(** Modelled from the spec: the body of a range response, checked against
    the length asked for ("differs from requested range length: treat as
    short read; fail"). *)
Definition checked_body (r : nat * nat) (resp : Response)
  : result (list Byte.byte) :=
  if (length (body resp) =? r.2 + 1 - r.1)%nat then Ok (body resp)
  else Err (Errorf "short read").

(** Modelled from the spec: the reader "yields chunk 0's buffer, then
    awaits chunk 1, then chunk 2", and surfaces the first error. *)
Fixpoint read_all (chunks : list (result (list Byte.byte)))
  : result (list Byte.byte) :=
  match chunks with
  | [] => Ok []
  | Err e :: _ => Err e
  | Ok b :: rest =>
      match read_all rest with
      | Ok bs => Ok (b ++ bs)%list
      | Err e => Err e
      end
  end.

(** Modelled from the spec: the capability set of a strategy, [fetch] and
    [do_request], over the state [S] of the implementation. *)
Record Strategy (S : Type) : Type := mkStrategy {
  Fetch : URL -> S -> result (list Byte.byte * Z) * S;
  DoRequest : nat -> nat -> URL -> S -> result Response * S
}.
Arguments Fetch {S} _ _ _.
Arguments DoRequest {S} _ _ _ _ _.

(** Modelled from the spec: the chunked range engine, section 4.2.  The
    probe asks for the first chunk; a 200 answer is the whole object; a
    206 answer is chunk 0 and announces the size; an empty object gives
    an empty reader; the other chunks follow in index order. *)
Definition BufferMode_Fetch (opts : Options) (net : network) (u : URL)
  : result (list Byte.byte * Z) :=
  match do_request net u 0 (chunk_size opts - 1) with
  | Err e => Err e
  | Ok probe =>
      if status probe =? 200
      then Ok (body probe, Z.of_nat (length (body probe)))
      else
        let size := total probe in
        if (size =? 0)%nat then Ok ([], 0)
        else
          let workers :=
            (fun r => match do_request net u r.1 r.2 with
                      | Err e => Err e
                      | Ok resp => checked_body r resp
                      end)
              <$> tail (pieces (chunk_size opts) 0 size) in
          match read_all (Ok (body probe) :: workers) with
          | Ok bs => Ok (bs, Z.of_nat size)
          | Err e => Err e
          end
  end.

(** Modelled from the spec: the engine as a strategy; its [DoRequest] is
    the client's. *)
Definition BufferMode (opts : Options) (net : network) : Strategy unit :=
  mkStrategy unit
    (fun u s => (BufferMode_Fetch opts net u, s))
    (fun range_start range_end u s =>
       (do_request net u range_start range_end, s)).

Section ConsistentHashing.

Context {S : Type}.

(** Modelled from the spec: "[host_index = ch_hash(url_base, s, M)]"; the
    hash itself is not written down, it is a parameter. *)
Variable ch_hash : string -> nat -> nat -> nat.
Variable fallback : Strategy S.
Variable opts : Options.
Variable net : network.

(** Modelled from the spec: each slice "rewrites the URL host to its
    assigned cache host (scheme and path preserved)". *)
Definition cache_url (u : URL) (slice : nat) : URL :=
  let M := length (cache_hosts opts) in
  mkURL (scheme u)
        (default "" (cache_hosts opts !! ch_hash (url_base u) slice M))
        (path u).

(** Modelled from the spec: "effective chunk_size = min(chunk_size,
    slice_size)". *)
Definition effective_chunk_size : nat :=
  Nat.min (chunk_size opts) (slice_size opts).

(** Modelled from the spec: one chunk of a slice, from the cache host,
    or, when that fails with the fallback class, "through the fallback's
    [do_request] against origin". *)
Definition fetch_chunk (u : URL) (slice : nat) (r : nat * nat)
  : S -> result (list Byte.byte) * S :=
  fun s =>
    match do_request net (cache_url u slice) r.1 r.2 with
    | Ok resp => (checked_body r resp, s)
    | Err e =>
        if is_fallback_error e then
          match DoRequest fallback r.1 r.2 u s with
          | (Ok resp, s') => (checked_body r resp, s')
          | (Err e', s') => (Err e', s')
          end
        else (Err e, s)
    end.

(** Modelled from the spec: the slices, "S = ceil(size / slice_size)",
    each cut into chunks by the engine's plan; every chunk carries the
    index of its slice. *)
Definition chunk_plan (size : nat) : list (nat * (nat * nat)) :=
  flat_map
    (fun ir : nat * (nat * nat) =>
       (fun r => (ir.1, r))
         <$> pieces effective_chunk_size ir.2.1 (ir.2.2 + 1))
    (imap (fun i r => (i, r)) (pieces (slice_size opts) 0 size)).

(** Modelled from the spec: "the returned reader concatenates slice
    readers in order"; the first failure ends it. *)
Fixpoint fetch_chunks (u : URL) (plan : list (nat * (nat * nat)))
  : S -> result (list Byte.byte) * S :=
  fun s =>
    match plan with
    | [] => (Ok [], s)
    | (slice, r) :: rest =>
        match fetch_chunk u slice r s with
        | (Err e, s') => (Err e, s')
        | (Ok b, s') =>
            match fetch_chunks u rest s' with
            | (Ok bs, s'') => (Ok (b ++ bs)%list, s'')
            | (Err e, s'') => (Err e, s'')
            end
        end
    end.

(** Modelled from the spec: the consistent-hashing dispatcher, section
    4.3.  A host outside [domains_to_cache] or an empty cache-host list
    goes to the fallback.  The probe goes to the cache host of slice 0: a
    failure of the fallback class hands the whole URL to the fallback's
    [Fetch], any other failure is returned.  After the probe, the chunks
    of every slice are fetched and concatenated in order, the probe's
    body being the first of them. *)
Definition ConsistentHashingMode_Fetch (u : URL)
  : S -> result (list Byte.byte * Z) * S :=
  fun s =>
    if negb (bool_decide (host u ∈ domains_to_cache opts))
    then Fetch fallback u s
    else match cache_hosts opts with
    | [] => Fetch fallback u s
    | _ :: _ =>
        match do_request net (cache_url u 0) 0 (effective_chunk_size - 1) with
        | Err e =>
            if is_fallback_error e then Fetch fallback u s else (Err e, s)
        | Ok probe =>
            if status probe =? 200
            then (Ok (body probe, Z.of_nat (length (body probe))), s)
            else
              let size := total probe in
              if (size =? 0)%nat then (Ok ([], 0), s)
              else
                match fetch_chunks u (tail (chunk_plan size)) s with
                | (Ok bs, s') =>
                    (Ok ((body probe ++ bs)%list, Z.of_nat size), s')
                | (Err e, s') => (Err e, s')
                end
        end
    end.

End ConsistentHashing.

(** [testStrategy] of consistent_hashing_test.go: it counts its calls. *)
Record testState : Type := mkTestState {
  fetchCalledCount : nat;
  doRequestCalledCount : nat
}.

(** The two bytes of ["00"]. *)
Definition zero_zero : list Byte.byte := [Byte.x30; Byte.x30].

Definition testStrategy : Strategy testState :=
  mkStrategy testState
    (fun _ s =>
       (Ok (zero_zero, -1),
        mkTestState (S (fetchCalledCount s)) (doRequestCalledCount s)))
    (fun _ _ _ s =>
       (Ok (mkResponse 0 zero_zero 0),
        mkTestState (fetchCalledCount s) (S (doRequestCalledCount s)))).

(** A server that holds [data] and honours ranges: status 206, the bytes
    of the range that exist, the size of the object. *)
Definition range_answer (data : list Byte.byte) (lo hi : nat) : Response :=
  mkResponse 206
    (take (Nat.min (hi + 1) (length data) - lo) (drop lo data))
    (length data).

(** A server that ignores ranges: status 200 and the whole object. *)
Definition whole_answer (data : list Byte.byte) : Response :=
  mkResponse 200 data (length data).

End download.

(** ** The download strategies: servers and the statement of identity *)
Module download_spec.
Import download.

(** The bytes [a] to [b - 1] of [data]. *)
Definition sub (data : list Byte.byte) (a b : nat) : list Byte.byte :=
  take (b - a) (drop a data).

(** The origin of [u] holds [data] and honours ranges. *)
Definition origin_ranged (net : network) (u : URL) (data : list Byte.byte)
  : Prop :=
  forall lo hi, net u lo hi = range_answer data lo hi.

(** The origin of [u] holds [data] and ignores ranges. *)
Definition origin_whole (net : network) (u : URL) (data : list Byte.byte)
  : Prop :=
  forall lo hi, net u lo hi = whole_answer data.

(** Every cache host a slice of [u] can be sent to either serves the
    range of [data] asked for or fails with a status of the fallback
    class. *)
Definition caches_serve_or_fail (ch_hash : string -> nat -> nat -> nat)
    (opts : Options) (net : network) (u : URL) (data : list Byte.byte)
  : Prop :=
  forall slice lo hi,
    net (cache_url ch_hash opts u slice) lo hi = range_answer data lo hi \/
    fallback_class (status (net (cache_url ch_hash opts u slice) lo hi)) = true.

(** The bytes of a chunk of the plan. *)
Definition bytes_of (data : list Byte.byte) (p : nat * (nat * nat))
  : list Byte.byte :=
  sub data p.2.1 (p.2.2 + 1).

(** A range inside an object of [n] bytes. *)
Definition valid_range (n : nat) (r : nat * nat) : Prop :=
  (r.1 < r.2 + 1 <= n)%nat.

(** The examples: sixteen bytes, every host serving them. *)
Definition sixteen : list Byte.byte := replicate 16 Byte.x30.

Definition serve_sixteen : network := fun _ lo hi => range_answer sixteen lo hi.

Definition hello : URL := mkURL "http" "fake.replicate.delivery" "/hello.txt".

Definition by_slice (base : string) (slice M : nat) : nat := (slice mod M)%nat.

Definition test_options (hosts : list string) : Options :=
  mkOptions 8 2 3 hosts ["fake.replicate.delivery"] 0.

(** A cache host that answers every request with the status [st]. *)
Definition always (st : Z) : network := fun _ _ _ => mkResponse st [] 0.

End download_spec.

(** ** More of package cli, as a reader of the code would state it *)
Module cli_more.

(** The error of the first record whose target [cacheIndexFor] cannot
    turn into an index. *)
Fixpoint first_error (srvs : list cli.SRV) : option error :=
  match srvs with
  | [] => None
  | srv :: rest =>
      match cli.cacheIndexFor (cli.Target srv) with
      | Err err => Some err
      | Ok _ => first_error rest
      end
  end.

(** Every character of [s] satisfies [p]. *)
Definition all_chars (p : ascii -> bool) (s : string) : bool :=
  forallb p (list_ascii_of_string s).

End cli_more.

(** ** More of package multifile, as a reader of the code would state it *)
Module multifile_more.


(** The line is not blank. *)
Definition nonblank (text : string) : Prop := strings.TrimSpace text <> "".

#[global] Instance nonblank_dec (text : string) : Decision (nonblank text).
Proof. unfold nonblank. apply _. Defined.


End multifile_more.

(** ** Path elements, for the facts about [filepath.Clean] *)
Module filepath_more.

(** No separator in [c]. *)
Definition sep_free (c : string) : bool :=
  negb (existsb (Ascii.eqb filepath.Separator) (list_ascii_of_string c)).

(** An element that [filepath.Clean] keeps: not empty, not [.], without
    separator. *)
Definition element (c : string) : Prop :=
  c <> "" /\ c <> "." /\ sep_free c = true.

(** The stack of kept elements is one that cleaning it again gives back. *)
Definition settled (rooted : bool) (stack : list string) : Prop :=
  fold_left (filepath.clean_step rooted) (rev stack) [] = stack /\
  Forall element stack.

(** The length of the elements, one more for each. *)
Definition weight (l : list string) : nat :=
  sum_list_with (fun c => S (String.length c)) l.

End filepath_more.

(** ** More of package extract, as a reader of the code would state it *)
Module extract_more.
Import proc.

(** The type flags [TarFile] has a case for. *)
Definition supported (flag : ascii) : bool :=
  (Ascii.eqb flag tar.TypeXGlobalHeader || Ascii.eqb flag tar.TypeDir
   || Ascii.eqb flag tar.TypeReg || Ascii.eqb flag tar.TypeSymlink
   || Ascii.eqb flag tar.TypeLink)%bool.

(** What the guard lets through, with [wd] as working directory: a name
    that is not empty and an absolute target that starts, as text, with
    the absolute destination. *)
Definition guard_accepts (wd : option string) (destDir name : string) : Prop :=
  name <> "" /\
  exists target destAbs,
    (filepath.Abs (filepath.Join destDir name) (mkState ∅ wd [])).1 = Ok target /\
    (filepath.Abs destDir (mkState ∅ wd [])).1 = Ok destAbs /\
    strings.HasPrefix target destAbs = true.

(** [m] leaves the working directory alone. *)
Definition keeps_cwd {A} (m : M A) : Prop :=
  forall s, cwd (m s).2 = cwd s.

(** [k] names a directory that has something in it: what [os.Remove]
    refuses to remove. *)
Definition nonempty_dir (f : gmap string node) (k : string) : bool :=
  match f !! k with
  | Some (NDir _) => os.has_child f k
  | _ => false
  end.

(** [k] is a resolved name, not the root, in a directory that exists. *)
Definition placed (f : gmap string node) (k : string) : Prop :=
  filepath.IsAbs k = true /\ filepath.Clean k = k /\ k <> "/" /\
  os.is_dir f (filepath.Dir k) = true.

(** [tmp_out] with the regular file [/tmp/out/a] in it. *)
Definition tmp_out_a : state :=
  mkState (<["/tmp/out/a" := NFile 384 [Byte.x62; Byte.x63]]>
             (fs extract_spec.tmp_out)) (Some "/") [].

(** The errors the calls of package [os] end with. *)
Definition os_error (e : error) : bool :=
  match e with
  | ErrNotExist | ErrExist | ErrNotDir | ErrIsDir | ErrNotEmpty
  | ErrInvalid => true
  | _ => false
  end.

(** A link of one of the two types [createLinks] has a case for. *)
Definition link_typed (l : extract.link) : Prop :=
  extract.linkType l = tar.TypeLink \/ extract.linkType l = tar.TypeSymlink.

End extract_more.

(** * Properties *)

(** ** The library models on known values *)
Module LibraryChecks.

(** The Unix rows of the table of [TestClean] in Go's path/filepath. *)
Example Clean_table :
  Forall (fun io : string * string => filepath.Clean io.1 = io.2)
    [("abc", "abc"); ("abc/def", "abc/def"); ("a/b/c", "a/b/c");
     (".", "."); ("..", ".."); ("../..", "../.."); ("../../abc", "../../abc");
     ("/abc", "/abc"); ("/", "/"); ("", ".");
     ("abc/", "abc"); ("abc/def/", "abc/def"); ("a/b/c/", "a/b/c");
     ("./", "."); ("../", ".."); ("../../", "../.."); ("/abc/", "/abc");
     ("abc//def//ghi", "abc/def/ghi"); ("abc//", "abc");
     ("abc/./def", "abc/def"); ("/./abc/def", "/abc/def"); ("abc/.", "abc");
     ("abc/def/ghi/../jkl", "abc/def/jkl");
     ("abc/def/../ghi/../jkl", "abc/jkl");
     ("abc/def/..", "abc"); ("abc/def/../..", ".");
     ("/abc/def/../..", "/"); ("abc/def/../../..", "..");
     ("/abc/def/../../..", "/");
     ("abc/def/../../../ghi/jkl/../../../mno", "../../mno");
     ("/../abc", "/abc");
     ("abc/./../def", "def"); ("abc//./../def", "def");
     ("abc/../../././../def", "../../def")].
Proof. repeat constructor. Qed.

Example Join_Dir_values :
  filepath.Join "/tmp/out" "a/b" = "/tmp/out/a/b" /\
  filepath.Join "/tmp/out" "../evil" = "/tmp/evil" /\
  filepath.Join "" "a" = "a" /\
  filepath.Join "a" "" = "a" /\
  filepath.Dir "/tmp/out/a/b" = "/tmp/out/a" /\
  filepath.Dir "/a" = "/" /\
  filepath.Dir "a" = ".".
Proof. repeat split. Qed.

Example Fields_values :
  strings.Fields "  http://example.com/foo/bar.txt     foo/bar.txt " =
    ["http://example.com/foo/bar.txt"; "foo/bar.txt"] /\
  strings.Fields "" = [] /\
  strings.TrimSpace (String "009"%char " a b ") = "a b".
Proof. repeat split. Qed.

Example Scan_values :
  bufio.Scan ("a" ++ multifile_spec.newline ++ multifile_spec.newline
              ++ "b" ++ String "013"%char multifile_spec.newline) =
    ["a"; ""; "b"] /\
  bufio.Scan "a" = ["a"] /\
  bufio.Scan "" = [].
Proof. repeat split. Qed.

Example hostnameIndexRegexp_values :
  cli.FindStringSubmatch "cache-12.example.com." = Some "12" /\
  cli.FindStringSubmatch "a-1-2.x" = Some "2" /\
  cli.FindStringSubmatch "cache12.example.com." = None /\
  cli.FindStringSubmatch "Cache-1.example.com." = None /\
  cli.cacheIndexFor "cache-007.example.com." = Ok 7.
Proof. repeat split. Qed.

(** [TestManifest_AddEntry] of pkg/rpget_test.go. *)
Example Manifest_AddEntry :
  let entries := rpget.AddEntry [] "https://example.com/file1.txt" "/tmp/file1.txt" in
  length entries = 1%nat /\
  let entries := rpget.AddEntry entries "https://example.org/file2.txt" "/tmp/file2.txt" in
  length entries = 2%nat /\
  rpget.URL <$> entries !! 0%nat = Some "https://example.com/file1.txt" /\
  rpget.Dest <$> entries !! 0%nat = Some "/tmp/file1.txt" /\
  rpget.URL <$> entries !! 1%nat = Some "https://example.org/file2.txt" /\
  rpget.Dest <$> entries !! 1%nat = Some "/tmp/file2.txt".
Proof. repeat split. Qed.

End LibraryChecks.

(** ** What a computation adds to the call log *)
Module CallLog.
Import proc.

Lemma emits_weaken {A} (m : M A) (P Q : result A -> list syscall -> Prop) :
  emits m P -> (forall r n, P r n -> Q r n) -> emits m Q.
Proof.
  intros Hm HPQ s. destruct (Hm s) as (new & Hc & HP).
  exists new. split; [exact Hc | apply HPQ, HP].
Qed.

Lemma emits_ret {A} (a : A) (P : result A -> list syscall -> Prop) :
  P (Ok a) [] -> emits (ret a) P.
Proof. intros HP s. exists []. simpl. rewrite app_nil_r. auto. Qed.

Lemma emits_fail {A} (e : error) (P : result A -> list syscall -> Prop) :
  P (Err e) [] -> emits (fail e) P.
Proof. intros HP s. exists []. simpl. rewrite app_nil_r. auto. Qed.


Lemma emits_bind {A B} (m : M A) (k : A -> M B)
    (P1 : result A -> list syscall -> Prop)
    (P : result B -> list syscall -> Prop) :
  emits m P1 ->
  (forall e n1, P1 (Err e) n1 -> P (Err e) n1) ->
  (forall a n1, P1 (Ok a) n1 -> emits (k a) (fun r n2 => P r (n1 ++ n2)%list)) ->
  emits (bind m k) P.
Proof.
  intros Hm He Hk s. unfold bind.
  destruct (Hm s) as (n1 & Hc1 & HP1).
  destruct (m s) as [[a | e] s1]; simpl in *.
  - destruct (Hk a n1 HP1 s1) as (n2 & Hc2 & HP2).
    exists (n1 ++ n2)%list. split; [| exact HP2].
    rewrite Hc2, Hc1. by rewrite app_assoc.
  - exists n1. split; [exact Hc1 | apply He, HP1].
Qed.

Lemma emits_try {A} (m : M A) (P1 : result A -> list syscall -> Prop)
    (P : result (result A) -> list syscall -> Prop) :
  emits m P1 -> (forall r n, P1 r n -> P (Ok r) n) -> emits (try m) P.
Proof.
  intros Hm HP s. unfold try.
  destruct (Hm s) as (n & Hc & HP1).
  destruct (m s) as [r s1]; simpl in *.
  exists n. split; [exact Hc | apply HP, HP1].
Qed.

Lemma emits_record (c : syscall) :
  emits (record c) (fun _ n => n = [c]).
Proof. intros s. exists [c]. simpl. auto. Qed.

Lemma emits_on_fs f (P : result unit -> list syscall -> Prop) :
  (forall r, P r []) -> emits (on_fs f) P.
Proof.
  intros HP s. exists []. unfold on_fs.
  destruct (f (fs s)); simpl; rewrite app_nil_r; auto.
Qed.

Lemma silent_Abs p : silent (filepath.Abs p).
Proof.
  intros s. exists []. unfold filepath.Abs, filepath.Getwd, bind, ret.
  destruct (filepath.IsAbs p); simpl; [by rewrite app_nil_r |].
  destruct (cwd s); simpl; by rewrite app_nil_r.
Qed.

Lemma silent_emits {A} (m : M A) (P : result A -> list syscall -> Prop) :
  silent m -> (forall r, P r []) -> emits m P.
Proof. intros Hm HP. eapply emits_weaken; [exact Hm |]. by intros r n ->. Qed.

Lemma logs_MkdirAll p perm : logs (os.MkdirAll p perm) (SysMkdirAll p perm).
Proof.
  unfold logs, os.MkdirAll.
  eapply emits_bind; [apply emits_record | by intros | ].
  intros _ n1 ->.
  eapply emits_bind; [apply silent_Abs | by intros e n -> | ].
  intros k n ->. by apply emits_on_fs.
Qed.

Lemma logs_OpenFile p flag perm :
  emits (os.OpenFile p flag perm)
    (fun r n => n = [SysOpenFile p flag perm] /\
                match r with Ok h => h = p | Err _ => True end).
Proof.
  unfold os.OpenFile.
  eapply emits_bind; [apply emits_record | by intros | ].
  intros _ n1 ->.
  eapply emits_bind; [apply silent_Abs | by intros e n -> | ].
  intros k n ->.
  eapply emits_bind;
    [apply (emits_on_fs _ (fun _ n => n = [])); reflexivity | by intros e n -> | ].
  intros _ n ->. by apply emits_ret.
Qed.

Lemma logs_Write h data : logs (os.Write h data) (SysWrite h data).
Proof.
  unfold logs, os.Write.
  eapply emits_bind; [apply emits_record | by intros | ].
  intros _ n1 ->.
  eapply emits_bind; [apply silent_Abs | by intros e n -> | ].
  intros k n ->. by apply emits_on_fs.
Qed.

Lemma logs_Close h : logs (os.Close h) (SysClose h).
Proof. unfold logs, os.Close. apply emits_record. Qed.




End CallLog.

(** ** The extractor *)
Module ExtractFacts.
Import proc CallLog extract_spec.

Lemma silent_try {A} (m : M A) : silent m -> silent (try m).
Proof. intros Hm. eapply emits_try; [exact Hm | by intros]. Qed.

Lemma logs_try {A} (m : M A) c : logs m c -> logs (try m) c.
Proof. intros Hm. eapply emits_try; [exact Hm | by intros]. Qed.

Lemma logs_wrap_err msg (m : M unit) c :
  logs m c -> logs (extract.wrap_err msg m) c.
Proof.
  intros Hm. unfold logs, extract.wrap_err.
  eapply emits_bind; [apply logs_try, Hm | by intros | ].
  intros [_ | err] n ->; [by apply emits_ret | by apply emits_fail].
Qed.

Lemma silent_guard h dest : silent (extract.guardAgainstZipSlip h dest).
Proof.
  unfold silent, extract.guardAgainstZipSlip.
  destruct (decide (tar.Name h = "")) as [Hnm | Hnm]; [by apply emits_fail |].
  eapply emits_bind; [apply silent_try, silent_Abs | by intros | ].
  intros [target | err] n ->; [| by apply emits_fail].
  eapply emits_bind; [apply silent_try, silent_Abs | by intros | ].
  intros [destAbs | err] n ->; [| by apply emits_fail].
  destruct (negb _); [by apply emits_fail | by apply emits_ret].
Qed.

Lemma extractEntry_emits e dest ow links :
  emits (extract.extractEntry e dest ow links) (entry_post dest ow e links).
Proof.
  unfold extract.extractEntry, entry_post, entry_calls, deferred, is_link.
  set (h := tar.header e). set (target := filepath.Join dest (tar.Name h)).
  set (mode := extract.cleanFileMode (os.FileMode (tar.Mode h))).
  eapply emits_bind; [apply logs_MkdirAll | | ].
  { intros err n ->. split; [| done]. by eexists. }
  intros _ n ->.
  eapply emits_bind; [apply silent_guard | | ].
  { intros err n ->. split; [| done]. by eexists. }
  intros _ n ->. cbn [app].
  destruct (Ascii.eqb_spec (tar.Typeflag h) tar.TypeXGlobalHeader) as [Hg | Hg].
  { apply emits_ret. unfold is_link. fold h. rewrite Hg. cbn. by rewrite app_nil_r. }
  destruct (Ascii.eqb_spec (tar.Typeflag h) tar.TypeDir) as [Hd | Hd].
  { eapply emits_bind; [apply logs_MkdirAll | | ].
    - intros err n ->. split; [| done]. by exists [].
    - intros _ n ->. apply emits_ret. unfold is_link. fold h. rewrite Hd. cbn.
      by rewrite app_nil_r. }
  destruct (Ascii.eqb_spec (tar.Typeflag h) tar.TypeReg) as [Hr | Hr].
  { eapply emits_bind; [apply logs_OpenFile | | ].
    - intros err n [-> _]. split; [| done]. destruct ow; by eexists.
    - intros hd n [-> ->].
      eapply emits_bind.
      + apply logs_try with (c := SysWrite target (tar.body e)).
        unfold extract.Copy.
        eapply emits_bind; [apply logs_Write | by intros | ].
        intros _ n ->. destruct (tar.body_err e); [by apply emits_fail | by apply emits_ret].
      + intros err n ->. split; [by eexists | done].
      + intros [_ | err] n ->.
        * eapply emits_bind; [apply logs_wrap_err, logs_Close | | ].
          { intros err n ->. split; [| done]. destruct ow; by eexists. }
          intros _ n ->. apply emits_ret. unfold is_link. fold h. rewrite Hr. cbn.
          rewrite app_nil_r. destruct ow; done.
        * eapply emits_bind; [apply logs_Close | | ].
          { intros err' n ->. split; [| done]. destruct ow; by eexists. }
          intros _ n ->. apply emits_fail. split; [| done]. destruct ow; by eexists. }
  destruct (Ascii.eqb (tar.Typeflag h) tar.TypeSymlink
            || Ascii.eqb (tar.Typeflag h) tar.TypeLink)%bool eqn:Hl.
  - apply emits_ret. split; [done |]. split; [done |].
    reflexivity.
  - apply emits_fail. split; [done | done].
Qed.

Lemma deferred_app dest es1 es2 :
  deferred dest (es1 ++ es2) = (deferred dest es1 ++ deferred dest es2)%list.
Proof.
  induction es1 as [| e es1 IH]; [done |].
  cbn. destruct (is_link (tar.header e)); cbn; by rewrite IH.
Qed.

Lemma extractEntries_emits es next_err dest ow links :
  emits (extract.extractEntries es next_err dest ow links)
        (parse_post dest ow es next_err links).
Proof.
  revert links. induction es as [| e es IH]; intros links; cbn [extract.extractEntries].
  - destruct next_err as [err |].
    + apply emits_fail. split; [done | done].
    + apply emits_ret. split; [done |]. cbn. by rewrite app_nil_r.
  - eapply emits_bind; [apply extractEntry_emits | | ].
    + intros err n [Hp _]. split; [| done].
      cbn [flat_map]. by apply prefix_app_r.
    + intros links' n [_ [-> ->]].
      eapply emits_weaken; [apply IH |].
      intros r n [Hp Hr]. split.
      * cbn [flat_map]. by apply prefix_app.
      * destruct r as [l2 |]; [| done].
        destruct Hr as (-> & -> & ->). split; [done |]. split; [| done].
        change (e :: es) with ([e] ++ es)%list.
        by rewrite deferred_app, app_assoc.
Qed.

















Lemma checkPadding_ok (p : list Byte.byte) :
  extract.checkPadding p = Ok tt <-> Forall (fun b => b = Byte.x00) p.
Proof.
  induction p as [| b p IH]; cbn [extract.checkPadding].
  - split; [by constructor | done].
  - destruct (Byte.eqb b Byte.x00) eqn:Hb; cbn [negb].
    + apply Byte.byte_dec_bl in Hb. rewrite IH. split.
      * intros H. by constructor.
      * intros H. by inversion H.
    + split; [done |]. intros H. inversion H as [| ? ? Hb0 ?]. subst.
      by rewrite Byte.byte_dec_lb in Hb.
Qed.

(** C5. [TarFile] succeeds exactly when everything up to the link queue
    succeeds, the read of the bytes left after the end-of-archive marker
    succeeds, and every one of those bytes is [0x00]; hence a byte that is
    not null makes it return an error. *)
Theorem TarFile_checks_padding (r : extract.archive) (dest : string)
    (ow : bool) (s : state) :
  ((extract.TarFile r dest ow s).1 = Ok tt <->
   (extract.TarFile (without_padding r) dest ow s).1 = Ok tt /\
   extract.padding_err r = None /\
   Forall (fun b => b = Byte.x00) (extract.padding r)) /\
  (Exists (fun b => b <> Byte.x00) (extract.padding r) ->
   exists err, (extract.TarFile r dest ow s).1 = Err err).
Proof.
  assert (Hiff :
    (extract.TarFile r dest ow s).1 = Ok tt <->
    (extract.TarFile (without_padding r) dest ow s).1 = Ok tt /\
    extract.padding_err r = None /\
    Forall (fun b => b = Byte.x00) (extract.padding r)).
  { rewrite <- checkPadding_ok.
    unfold extract.TarFile, without_padding, bind, lift, fail, ret; cbn.
    destruct (extract.peek_err r); [cbn; split; [done | by intros [? _]] |].
    destruct (extract.decompressor r) as [[derr |] |]; cbn;
      try (split; [done | by intros [? _]]).
    all: destruct (extract.extractEntries _ _ _ _ _ s) as [[links | e1] s1]; cbn;
      try (split; [done | by intros [? _]]).
    all: destruct (extract.wrap_err _ _ s1) as [[[] | e2] s2]; cbn;
      try (split; [done | by intros [? _]]).
    all: destruct (extract.padding_err r); cbn;
      [split; [done | by intros (_ & ? & _)] |].
    all: split; [by intros -> | by intros (_ & _ & ->)]. }
  split; [exact Hiff |].
  intros Hex. destruct (extract.TarFile r dest ow s).1 as [[] | err] eqn:Hres;
    [| by exists err].
  destruct Hiff as [Hiff _]. destruct (Hiff eq_refl) as (_ & _ & Hall).
  apply Exists_exists in Hex as (b & Hin & Hb).
  rewrite Forall_forall in Hall. by specialize (Hall b Hin).
Qed.

(** C1, evaluated.  With [/tmp/out] as destination, the regular entry
    [../outside] passes the guard, because [/tmp/outside] starts with the
    text [/tmp/out]: extraction succeeds and the file is created next to
    the destination, not inside it.  The entry [../evil/x] is rejected
    with the zip-slip error, but only after [MkdirAll] has created
    [/tmp/evil]. *)
Theorem TarFile_escapes_destination :
  (let out := extract.TarFile (plain [regular "../outside"]) "/tmp/out" false tmp_out in
   out.1 = Ok tt /\
   fs out.2 !! "/tmp/outside" = Some (NFile 420 [Byte.x61]) /\
   inside "/tmp/out" "/tmp/outside" = false) /\
  (let out := extract.TarFile (plain [regular "../evil/x"]) "/tmp/out" false tmp_out in
   out.1 = Err (Wrapf "outside of target directory" ErrZipSlip) /\
   fs tmp_out !! "/tmp/evil" = None /\
   fs out.2 !! "/tmp/evil" = Some (NDir os.perm0755) /\
   inside "/tmp/out" "/tmp/evil" = false).
Proof. vm_compute. repeat split. Qed.

Lemma guard_ignores_Linkname (h : tar.Header) (l dest : string) :
  extract.guardAgainstZipSlip
    (tar.mkHeader (tar.Typeflag h) (tar.Name h) l (tar.Mode h)) dest =
  extract.guardAgainstZipSlip h dest.
Proof. reflexivity. Qed.

(** C10. The guard reads the entry's name only, whatever the link target
    is; and an archive with the symbolic links [abs -> /etc/passwd] and
    [rel -> ../../etc/passwd] extracts without error into [/tmp/out],
    where both links then exist with these targets, which are outside
    [/tmp/out]. *)
Theorem TarFile_keeps_symlink_target :
  (forall (h : tar.Header) (l dest : string),
     extract.guardAgainstZipSlip
       (tar.mkHeader (tar.Typeflag h) (tar.Name h) l (tar.Mode h)) dest =
     extract.guardAgainstZipSlip h dest) /\
  (let out := extract.TarFile
                (plain [symbolic "abs" "/etc/passwd";
                        symbolic "rel" "../../etc/passwd"])
                "/tmp/out" false tmp_out in
   out.1 = Ok tt /\
   fs out.2 !! "/tmp/out/abs" = Some (NSymlink "/etc/passwd") /\
   fs out.2 !! "/tmp/out/rel" = Some (NSymlink "../../etc/passwd") /\
   filepath.IsAbs "/etc/passwd" = true /\
   inside "/tmp/out" "/etc/passwd" = false /\
   inside "/tmp/out" (filepath.Join (filepath.Dir "/tmp/out/rel") "../../etc/passwd") = false).
Proof. split; [intros; apply guard_ignores_Linkname |]. vm_compute. repeat split. Qed.


End ExtractFacts.

(** ** The cache-host ordering *)
Module CacheHostFacts.
Import cli cli_spec.

Lemma digit_value_nonneg c : isDigit c = true -> 0 <= digit_value c.
Proof.
  unfold isDigit, digit_value. intros H.
  apply andb_prop in H as [H _]. apply Nat.leb_le in H. lia.
Qed.

Lemma decimal_go_nonneg l acc :
  forallb isDigit l = true -> 0 <= acc ->
  0 <= fold_left (fun a c => 10 * a + digit_value c) l acc.
Proof.
  revert acc. induction l as [| c l IH]; intros acc Hd Hacc; [done |].
  cbn in Hd |- *. apply andb_prop in Hd as [Hc Hl].
  apply IH; [done |]. pose proof (digit_value_nonneg c Hc). lia.
Qed.

Lemma Atoi_nonneg s i : Atoi s = Ok i -> 0 <= i.
Proof.
  unfold Atoi. destruct (decide (s = "")); [done |].
  destruct (forallb isDigit (list_ascii_of_string s)) eqn:Hd; [| done].
  destruct (decimal s <=? MaxInt64); [| done].
  intros [= <-]. by apply decimal_go_nonneg.
Qed.

Lemma cacheIndexFor_nonneg t i : cacheIndexFor t = Ok i -> 0 <= i.
Proof.
  unfold cacheIndexFor. destruct (FindStringSubmatch t); [| done].
  apply Atoi_nonneg.
Qed.

Lemma index_of_nonneg srv : 0 <= index_of srv.
Proof.
  unfold index_of. destruct (cacheIndexFor (Target srv)) eqn:H; [| done].
  by eapply cacheIndexFor_nonneg.
Qed.

Lemma highest_index_cons srv srvs :
  highest_index (srv :: srvs) = Z.max (index_of srv) (highest_index srvs).
Proof. reflexivity. Qed.

Lemma highest_index_nonneg srvs : 0 <= highest_index srvs.
Proof.
  induction srvs as [| srv srvs IH]; [done |].
  rewrite highest_index_cons. lia.
Qed.

Lemma usable_index srv :
  usable srv ->
  cacheIndexFor (Target srv) = Ok (index_of srv) /\ index_of srv < maxStrings.
Proof. intros (i & Hi & Hlt). unfold index_of. by rewrite Hi. Qed.

Lemma highest_index_bound srvs :
  Forall usable srvs -> highest_index srvs < maxStrings.
Proof.
  induction 1 as [| srv srvs Hu _ IH]; [done |].
  rewrite highest_index_cons.
  apply usable_index in Hu as [_ Hu]. lia.
Qed.

Lemma index_le_highest srvs srv :
  srv ∈ srvs -> index_of srv <= highest_index srvs.
Proof.
  induction 1 as [srv srvs | srv x srvs _ IH]; rewrite highest_index_cons; lia.
Qed.

Lemma highestIndexOf_usable srvs h :
  Forall usable srvs -> 0 <= h ->
  highestIndexOf srvs h = Ok (Z.max h (highest_index srvs)).
Proof.
  intros Hall. revert h.
  induction Hall as [| srv srvs Hu _ IH]; intros h Hh.
  - cbn. f_equal. lia.
  - cbn [highestIndexOf]. rewrite highest_index_cons.
    apply usable_index in Hu as [-> _].
    pose proof (index_of_nonneg srv).
    destruct (Z.ltb_spec h (index_of srv)).
    + rewrite IH by lia. f_equal. lia.
    + rewrite IH by lia. f_equal. lia.
Qed.

Lemma length_place srvs out : length (place srvs out) = length out.
Proof.
  revert out. induction srvs as [| srv srvs IH]; intros out; [done |].
  unfold place in *. cbn. by rewrite IH, length_insert.
Qed.

Lemma placeHosts_usable srvs out :
  Forall (fun srv => usable srv /\ index_of srv < Z.of_nat (length out)) srvs ->
  placeHosts srvs out = Return (Ok (place srvs out)).
Proof.
  intros Hall. revert out Hall.
  induction srvs as [| srv srvs IH]; intros out Hall; [done |].
  apply Forall_cons in Hall as [[Hu Hlt] Hall].
  cbn [placeHosts]. apply usable_index in Hu as [-> _].
  pose proof (index_of_nonneg srv).
  replace (0 <=? index_of srv) with true by (symmetry; apply Z.leb_le; lia).
  replace (index_of srv <? Z.of_nat (length out)) with true
    by (symmetry; apply Z.ltb_lt; lia).
  cbn [andb]. rewrite IH; [done |].
  eapply Forall_impl; [exact Hall |]. intros x [? ?].
  by rewrite length_insert.
Qed.

Lemma place_snoc srvs srv out :
  place (srvs ++ [srv]) out =
  <[Z.to_nat (index_of srv) := hostnameOf srv]> (place srvs out).
Proof. unfold place. by rewrite foldl_app. Qed.

Lemma place_lookup srvs out (j : nat) :
  (j < length out)%nat ->
  place srvs out !! j =
  Some (default (default "" (out !! j))
          (last (hostnameOf <$>
                 filter (fun srv => index_of srv = Z.of_nat j) srvs))).
Proof.
  intros Hj. induction srvs as [| srv srvs IH] using rev_ind.
  - cbn. destruct (lookup_lt_is_Some_2 out j Hj) as [x ->]. done.
  - rewrite place_snoc, filter_app, fmap_app.
    pose proof (index_of_nonneg srv).
    destruct (decide (index_of srv = Z.of_nat j)) as [Heq | Hne].
    + rewrite Heq, Nat2Z.id.
      rewrite list_lookup_insert_eq by (by rewrite length_place).
      rewrite filter_cons_True by done. cbn. by rewrite last_snoc.
    + rewrite list_lookup_insert_ne by lia.
      rewrite filter_cons_False by done. cbn. by rewrite app_nil_r.
Qed.

Lemma highestIndexOf_no_match srvs h :
  Exists (fun srv => ~ matches (Target srv)) srvs ->
  exists err, highestIndexOf srvs h = Err err.
Proof.
  intros Hex. revert h.
  induction Hex as [srv srvs Hno | srv srvs _ IH]; intros h; cbn [highestIndexOf].
  - unfold cacheIndexFor, matches in *.
    destruct (FindStringSubmatch (Target srv)); [| by eexists].
    exfalso. apply Hno. by eexists.
  - destruct (cacheIndexFor (Target srv)); [apply IH | by eexists].
Qed.

(** C9, amended.  When every target matches with an index that [Atoi]
    accepts and that is small enough for the slice to be allocated,
    [orderCacheHosts] returns a slice one longer than the highest index
    (length 1 for no record at all), whose element [j] is the hostname of
    the last record with index [j], or the empty string when no record
    has that index.  When some target does not match the pattern, it
    returns an error. *)
Theorem orderCacheHosts_dense (srvs : list SRV) :
  (Forall usable srvs ->
   exists out,
     orderCacheHosts srvs = Return (Ok out) /\
     Z.of_nat (length out) = highest_index srvs + 1 /\
     forall j : nat, (j < length out)%nat -> out !! j = Some (host_at srvs j)) /\
  (Exists (fun srv => ~ matches (Target srv)) srvs ->
   exists err, orderCacheHosts srvs = Return (Err err)).
Proof.
  split.
  - intros Hall. unfold orderCacheHosts.
    rewrite highestIndexOf_usable by done.
    pose proof (highest_index_nonneg srvs) as H0.
    pose proof (highest_index_bound srvs Hall) as Hb.
    rewrite Z.max_r by done.
    unfold maxStrings in *.
    replace ((highest_index srvs + 1 + 2 ^ 63) mod 2 ^ 64 - 2 ^ 63)
      with (highest_index srvs + 1)
      by (rewrite Z.mod_small by lia; lia).
    replace (highest_index srvs + 1 <? 0) with false
      by (symmetry; apply Z.ltb_ge; lia).
    replace (2 ^ 44 <? highest_index srvs + 1) with false
      by (symmetry; apply Z.ltb_ge; lia).
    cbn [orb].
    set (out0 := replicate (Z.to_nat (highest_index srvs + 1)) "").
    assert (Hlen : Z.of_nat (length out0) = highest_index srvs + 1).
    { unfold out0. rewrite length_replicate. lia. }
    exists (place srvs out0). split; [| split].
    + apply placeHosts_usable. apply Forall_forall. intros srv Hin.
      split; [by eapply Forall_forall in Hall |].
      pose proof (index_le_highest srvs srv Hin). lia.
    + by rewrite length_place.
    + intros j Hj. rewrite length_place in Hj.
      rewrite place_lookup by done. unfold host_at, out0.
      rewrite lookup_replicate_2 by lia.
      done.
  - intros Hex. unfold orderCacheHosts.
    destruct (highestIndexOf_no_match srvs 0 Hex) as [err ->]. by eexists.
Qed.

(** Three records, one index unused: [c-0.x:8080], nothing, [c-2.x]. *)
Lemma orderCacheHosts_dense_witness :
  exists out,
    orderCacheHosts [mkSRV "c-2.x." 80; mkSRV "c-0.x." 8080] = Return (Ok out) /\
    Z.of_nat (length out) = 3 /\
    forall j : nat, (j < length out)%nat ->
      out !! j = Some (host_at [mkSRV "c-2.x." 80; mkSRV "c-0.x." 8080] j).
Proof.
  apply (proj1 (orderCacheHosts_dense [mkSRV "c-2.x." 80; mkSRV "c-0.x." 8080])).
  repeat constructor; eexists; (split; [vm_compute; reflexivity | reflexivity]).
Defined.

(** C9 as stated fails.  Two records with the same index: the slice has
    one element and it is the second record's hostname, so the first
    record's hostname is not at its index.  And a target that matches the
    pattern with twenty digits: [Atoi] rejects it and an error comes
    back. *)
Lemma orderCacheHosts_dense_counterexample :
  ~ dense_claim [mkSRV "c-0.a." 80; mkSRV "c-0.b." 80] /\
  ~ dense_claim [mkSRV "c-99999999999999999999.x." 80].
Proof.
  split.
  - intros [Hclaim _].
    destruct Hclaim as (out & Hout & _ & Hat).
    { repeat constructor; by eexists. }
    vm_compute in Hout. injection Hout as <-.
    specialize (Hat (mkSRV "c-0.a." 80) 0).
    assert (Hin : mkSRV "c-0.a." 80 ∈ [mkSRV "c-0.a." 80; mkSRV "c-0.b." 80])
      by (by left).
    specialize (Hat Hin eq_refl). vm_compute in Hat. discriminate.
  - intros [Hclaim _].
    destruct Hclaim as (out & Hout & _).
    { repeat constructor. by eexists. }
    vm_compute in Hout. discriminate.
Qed.

End CacheHostFacts.

(** ** The manifest *)
Module ManifestFacts.
Import proc multifile multifile_spec.










Section Parse.
Variable ConsumerNull : string.
Variable url_Parse : string -> result unit.
Variable cfg : cli.config.
Hypothesis Hconsumer : cli.OptOutputConsumer cfg <> ConsumerNull.



End Parse.



End ManifestFacts.

(** ** The download strategies *)
Module DownloadFacts.
Import download download_spec.

Local Open Scope nat_scope.

Lemma sub_app data a b c :
  a <= b -> b <= c -> (sub data a b ++ sub data b c)%list = sub data a c.
Proof.
  intros Hab Hbc. unfold sub.
  replace (c - a) with ((b - a) + (c - b)) by lia.
  rewrite <- take_take_drop, drop_drop.
  by replace (a + (b - a)) with b by lia.
Qed.

Lemma sub_all data : sub data 0 (length data) = data.
Proof. unfold sub. rewrite Nat.sub_0_r, drop_0. apply firstn_all. Qed.

Lemma sub_empty data a : sub data a a = [].
Proof. unfold sub. by rewrite Nat.sub_diag. Qed.

Lemma length_sub data a b : b <= length data -> length (sub data a b) = b - a.
Proof. intros Hb. unfold sub. rewrite length_take, length_drop. lia. Qed.

(** The pieces of a plan. *)
Lemma piece_count_spec size lo hi i :
  1 <= size -> i < piece_count size lo hi <-> lo + i * size < hi.
Proof.
  intros Hs. unfold piece_count.
  pose proof (Nat.div_mod_eq (hi - lo + size - 1) size) as Hdm.
  pose proof (Nat.mod_upper_bound (hi - lo + size - 1) size ltac:(lia)) as Hm.
  set (q := (hi - lo + size - 1) / size) in *.
  set (r := (hi - lo + size - 1) mod size) in *.
  split; intros H; nia.
Qed.

Lemma piece_valid n size lo hi i :
  1 <= size -> hi <= n -> i < piece_count size lo hi ->
  valid_range n (piece size lo hi i).
Proof.
  intros Hs Hn Hi. apply piece_count_spec in Hi; [| done].
  unfold valid_range, piece. cbn. lia.
Qed.

Lemma pieces_valid n size lo hi :
  1 <= size -> hi <= n -> Forall (valid_range n) (pieces size lo hi).
Proof.
  intros Hs Hn. unfold pieces. apply Forall_fmap, Forall_forall.
  intros i Hi. apply elem_of_seq in Hi. cbn. apply piece_valid; [done | done | lia].
Qed.

(** The bytes of the first [k] pieces are the bytes from [lo] to the end
    of piece [k - 1]. *)
Lemma pieces_concat_upto data size lo hi k :
  1 <= size -> lo <= hi -> k <= piece_count size lo hi ->
  concat ((fun r => sub data r.1 (r.2 + 1)) <$> (piece size lo hi <$> seq 0 k)) =
  sub data lo (Nat.min (lo + k * size) hi).
Proof.
  intros Hs Hlh. induction k as [| k IH]; intros Hk.
  - cbn. rewrite Nat.add_0_r, Nat.min_l by done. by rewrite sub_empty.
  - rewrite seq_S, !fmap_app, concat_app, IH by lia. cbn [fmap list_fmap concat].
    rewrite app_nil_r, Nat.add_0_l.
    assert (Hlt : lo + k * size < hi) by (apply piece_count_spec; [done | lia]).
    unfold piece. cbn [fst snd].
    rewrite (Nat.min_l (lo + k * size) hi) by lia.
    replace (Nat.min (lo + (k + 1) * size) hi - 1 + 1)
      with (Nat.min (lo + S k * size) hi) by lia.
    apply sub_app; lia.
Qed.

Lemma pieces_concat data size lo hi :
  1 <= size -> lo <= hi ->
  concat ((fun r => sub data r.1 (r.2 + 1)) <$> pieces size lo hi) =
  sub data lo hi.
Proof.
  intros Hs Hlh. unfold pieces.
  rewrite pieces_concat_upto by done. f_equal.
  apply Nat.min_r.
  destruct (Nat.le_gt_cases hi (lo + piece_count size lo hi * size)) as [? | Hlt];
    [done |].
  apply piece_count_spec in Hlt; [lia | done].
Qed.

Lemma pieces_head size lo hi :
  1 <= size -> lo < hi ->
  pieces size lo hi =
  (lo, Nat.min (lo + size) hi - 1) :: tail (pieces size lo hi).
Proof.
  intros Hs Hlt. unfold pieces.
  assert (H0 : 0 < piece_count size lo hi) by (apply piece_count_spec; lia).
  destruct (piece_count size lo hi) as [| c]; [lia |].
  cbn [seq fmap list_fmap tail]. unfold piece at 1.
  do 3 f_equal; lia.
Qed.

(** What the servers answer. *)
Lemma range_answer_body data lo hi :
  hi + 1 <= length data -> body (range_answer data lo hi) = sub data lo (hi + 1).
Proof.
  intros H. unfold range_answer, sub. cbn [body].
  by rewrite Nat.min_l by lia.
Qed.

Lemma do_request_ranged net u data lo hi :
  origin_ranged net u data ->
  do_request net u lo hi = Ok (range_answer data lo hi).
Proof. intros H. unfold do_request. by rewrite (H lo hi). Qed.

Lemma checked_body_ranged data r :
  valid_range (length data) r ->
  checked_body r (range_answer data r.1 r.2) = Ok (sub data r.1 (r.2 + 1)).
Proof.
  intros [H1 H2]. unfold checked_body.
  rewrite range_answer_body by done.
  rewrite length_sub by done. by rewrite Nat.eqb_refl.
Qed.

Lemma read_all_ok (l : list (list Byte.byte)) :
  read_all (Ok <$> l) = Ok (concat l).
Proof. induction l as [| b l IH]; [done |]. cbn. by rewrite IH. Qed.

Lemma fallback_class_not_ok st :
  fallback_class st = true -> ((st =? 200) || (st =? 206))%Z = false.
Proof.
  intros H.
  destruct (Z.eqb_spec st 200) as [-> | _]; [by vm_compute in H |].
  destruct (Z.eqb_spec st 206) as [-> | _]; [by vm_compute in H | done].
Qed.

(** The engine against an origin that honours ranges. *)
Lemma BufferMode_Fetch_ranged opts net u data :
  1 <= chunk_size opts -> origin_ranged net u data ->
  BufferMode_Fetch opts net u = Ok (data, Z.of_nat (length data)).
Proof.
  intros Hcs Hnet. unfold BufferMode_Fetch.
  rewrite (do_request_ranged _ _ data) by done.
  cbn [status range_answer total]. cbn [Z.eqb Pos.eqb].
  destruct (Nat.eqb_spec (length data) 0) as [H0 | Hn0].
  { apply nil_length_inv in H0. by subst. }
  set (f := fun r : nat * nat => match do_request net u r.1 r.2 with
                                 | Ok resp => checked_body r resp
                                 | Err e => Err e
                                 end).
  set (g := fun r : nat * nat => sub data r.1 (r.2 + 1)).
  assert (Hf : Forall (fun r => f r = Ok (g r))
                      (pieces (chunk_size opts) 0 (length data))).
  { eapply Forall_impl; [apply (pieces_valid (length data)); [done | lia] |].
    intros r Hr. unfold f, g.
    rewrite (do_request_ranged _ _ data) by done. by apply checked_body_ranged. }
  assert (Hall : (Ok (body (range_answer data 0 (chunk_size opts - 1)))
                    :: (f <$> tail (pieces (chunk_size opts) 0 (length data))))
                 = Ok <$> (g <$> pieces (chunk_size opts) 0 (length data))).
  { rewrite (pieces_head (chunk_size opts) 0 (length data)) in Hf |- * by lia.
    cbn [tail fmap list_fmap]. apply Forall_cons in Hf as [_ Hf].
    f_equal.
    - f_equal. unfold g, range_answer, sub. cbn [body fst snd].
      f_equal. lia.
    - rewrite <- list_fmap_compose. apply Forall_fmap_ext_1.
      eapply Forall_impl; [exact Hf |]. by intros r ->. }
  rewrite Hall, read_all_ok.
  unfold g. rewrite pieces_concat by lia. by rewrite sub_all.
Qed.

Lemma BufferMode_Fetch_whole opts net u data :
  origin_whole net u data ->
  BufferMode_Fetch opts net u = Ok (data, Z.of_nat (length data)).
Proof.
  intros Hnet. unfold BufferMode_Fetch, do_request.
  by rewrite (Hnet 0 (chunk_size opts - 1)).
Qed.

Section Dispatcher.
Variable ch_hash : string -> nat -> nat -> nat.
Variable opts : Options.
Variable net : network.
Variable u : URL.
Variable data : list Byte.byte.
Hypothesis Hcs : 1 <= chunk_size opts.
Hypothesis Hss : 1 <= slice_size opts.
Hypothesis Horigin : origin_ranged net u data.
Hypothesis Hcache : caches_serve_or_fail ch_hash opts net u data.

Lemma fetch_chunk_ok slice r :
  valid_range (length data) r ->
  fetch_chunk ch_hash (BufferMode opts net) opts net u slice r tt =
  (Ok (sub data r.1 (r.2 + 1)), tt).
Proof.
  intros Hr. unfold fetch_chunk.
  destruct (Hcache slice r.1 r.2) as [Heq | Hfail].
  - unfold do_request. rewrite Heq. cbn [status range_answer Z.eqb Pos.eqb orb].
    by rewrite checked_body_ranged.
  - unfold do_request. rewrite (fallback_class_not_ok _ Hfail).
    cbn [is_fallback_error]. rewrite Hfail.
    cbn [DoRequest BufferMode].
    rewrite (do_request_ranged _ _ data) by done.
    by rewrite checked_body_ranged.
Qed.

Lemma fetch_chunks_ok plan :
  Forall (fun p => valid_range (length data) p.2) plan ->
  fetch_chunks ch_hash (BufferMode opts net) opts net u plan tt =
  (Ok (concat (bytes_of data <$> plan)), tt).
Proof.
  induction 1 as [| [slice r] plan Hr _ IH]; [done |].
  cbn [fetch_chunks]. rewrite fetch_chunk_ok by done. by rewrite IH.
Qed.

Lemma effective_chunk_size_pos : 1 <= effective_chunk_size opts.
Proof. unfold effective_chunk_size. lia. Qed.

Lemma slice_chunks_valid (ir : nat * (nat * nat)) :
  valid_range (length data) ir.2 ->
  Forall (fun p : nat * (nat * nat) => valid_range (length data) p.2)
    ((fun r => (ir.1, r))
       <$> pieces (effective_chunk_size opts) ir.2.1 (ir.2.2 + 1)).
Proof.
  intros [H1 H2]. apply Forall_fmap. cbn.
  apply pieces_valid; [apply effective_chunk_size_pos | done].
Qed.

Lemma slice_chunks_concat (ir : nat * (nat * nat)) :
  valid_range (length data) ir.2 ->
  concat (bytes_of data <$> ((fun r => (ir.1, r))
            <$> pieces (effective_chunk_size opts) ir.2.1 (ir.2.2 + 1))) =
  sub data ir.2.1 (ir.2.2 + 1).
Proof.
  intros [H1 H2]. rewrite <- list_fmap_compose.
  change (bytes_of data ∘ (fun r => (ir.1, r)))
    with (fun r : nat * nat => sub data r.1 (r.2 + 1)).
  apply pieces_concat; [apply effective_chunk_size_pos | lia].
Qed.

Lemma indexed_snd {A} (h : nat -> nat) (l : list A) :
  (imap (fun i r => (h i, r)) l).*2 = l.
Proof.
  revert h. induction l as [| x l IH]; intros h; [done |].
  cbn. f_equal. apply (IH (h ∘ S)).
Qed.

Lemma plan_of_slices (slices : list (nat * (nat * nat))) :
  Forall (fun ir => valid_range (length data) ir.2) slices ->
  let plan :=
    flat_map (fun ir : nat * (nat * nat) =>
                (fun r => (ir.1, r))
                  <$> pieces (effective_chunk_size opts) ir.2.1 (ir.2.2 + 1))
             slices in
  Forall (fun p => valid_range (length data) p.2) plan /\
  concat (bytes_of data <$> plan) =
  concat ((fun r => sub data r.1 (r.2 + 1)) <$> slices.*2).
Proof.
  induction 1 as [| ir slices Hir _ [IH1 IH2]]; [done |].
  cbn [flat_map]. split.
  - apply Forall_app. split; [by apply slice_chunks_valid | exact IH1].
  - rewrite fmap_app, concat_app, IH2, slice_chunks_concat by done.
    reflexivity.
Qed.

Lemma chunk_plan_bytes :
  Forall (fun p => valid_range (length data) p.2)
         (chunk_plan opts (length data)) /\
  concat (bytes_of data <$> chunk_plan opts (length data)) = data.
Proof.
  unfold chunk_plan.
  set (slices := pieces (slice_size opts) 0 (length data)).
  assert (Hsnd : (imap (fun (i : nat) (r : nat * nat) => (i, r)) slices).*2
                 = slices) by exact (indexed_snd id slices).
  destruct (plan_of_slices
              (imap (fun (i : nat) (r : nat * nat) => (i, r)) slices))
    as [Hv Hc].
  { apply (Forall_fmap snd (valid_range (length data))).
    rewrite Hsnd. by apply pieces_valid. }
  split; [exact Hv |]. rewrite Hc, Hsnd.
  unfold slices. rewrite pieces_concat by lia. apply sub_all.
Qed.

Lemma chunk_plan_head :
  length data <> 0 ->
  exists slice,
    chunk_plan opts (length data) =
    (slice, (0, Nat.min (effective_chunk_size opts) (length data) - 1))
      :: tail (chunk_plan opts (length data)).
Proof.
  intros Hn. unfold chunk_plan.
  rewrite (pieces_head (slice_size opts) 0 (length data)) by lia.
  cbn [imap flat_map fst snd].
  rewrite (pieces_head (effective_chunk_size opts) 0) by
    (pose proof effective_chunk_size_pos; lia).
  cbn [fmap list_fmap app tail]. exists 0. do 3 f_equal.
  unfold effective_chunk_size. lia.
Qed.

Lemma ConsistentHashingMode_Fetch_identity :
  ConsistentHashingMode_Fetch ch_hash (BufferMode opts net) opts net u tt =
  (Ok (data, Z.of_nat (length data)), tt).
Proof.
  unfold ConsistentHashingMode_Fetch.
  assert (Hfb : Fetch (BufferMode opts net) u tt =
                (Ok (data, Z.of_nat (length data)), tt)).
  { cbn [Fetch BufferMode]. by rewrite (BufferMode_Fetch_ranged _ _ _ data). }
  destruct (negb _); [exact Hfb |].
  destruct (cache_hosts opts) as [| h hs] eqn:Hhosts; [exact Hfb |].
  destruct (Hcache 0 0 (effective_chunk_size opts - 1)) as [Heq | Hfail].
  - unfold do_request. rewrite Heq.
    cbn [status range_answer Z.eqb Pos.eqb orb total body].
    destruct (Nat.eqb_spec (length data) 0) as [H0 | Hn0].
    { apply nil_length_inv in H0. by subst. }
    destruct chunk_plan_bytes as [Hv Hc].
    destruct (chunk_plan_head Hn0) as [slice Hhead].
    rewrite Hhead in Hv, Hc.
    apply Forall_cons in Hv as [_ Hv].
    rewrite fetch_chunks_ok by done.
    do 3 f_equal. etransitivity; [| exact Hc].
    cbn [fmap list_fmap concat].
    f_equal. unfold bytes_of, sub. cbn [fst snd].
    pose proof effective_chunk_size_pos. f_equal. lia.
  - unfold do_request. rewrite (fallback_class_not_ok _ Hfail).
    cbn [is_fallback_error]. rewrite Hfail. exact Hfb.
Qed.

End Dispatcher.

(** C2.  With a chunk size and a slice size of at least one byte, and
    whatever [max_concurrency] is: the engine run against an origin that
    holds [data], whether it honours ranges or answers 200 with the whole
    object, returns exactly [data] and its length; and so does the
    dispatcher with the engine as its fallback, when the origin honours
    ranges and every cache host either serves the range asked for or
    fails with a status of the fallback class. *)
Theorem fetch_is_identity (ch_hash : string -> nat -> nat -> nat)
    (opts : Options) (net : network) (u : URL) (data : list Byte.byte) :
  1 <= chunk_size opts -> 1 <= slice_size opts ->
  (origin_ranged net u data \/ origin_whole net u data ->
   BufferMode_Fetch opts net u = Ok (data, Z.of_nat (length data))) /\
  (origin_ranged net u data ->
   caches_serve_or_fail ch_hash opts net u data ->
   ConsistentHashingMode_Fetch ch_hash (BufferMode opts net) opts net u tt =
   (Ok (data, Z.of_nat (length data)), tt)).
Proof.
  intros Hcs Hss. split.
  - intros [Hr | Hw];
      [by apply BufferMode_Fetch_ranged | by apply BufferMode_Fetch_whole].
  - intros Hr Hc. by apply ConsistentHashingMode_Fetch_identity.
Qed.

(** Sixteen bytes, chunks of 2 inside slices of 3, two cache hosts. *)
Lemma fetch_is_identity_witness :
  BufferMode_Fetch (test_options ["c0"; "c1"]) serve_sixteen hello =
    Ok (sixteen, 16%Z) /\
  ConsistentHashingMode_Fetch by_slice
    (BufferMode (test_options ["c0"; "c1"]) serve_sixteen)
    (test_options ["c0"; "c1"]) serve_sixteen hello tt =
    (Ok (sixteen, 16%Z), tt).
Proof.
  destruct (fetch_is_identity by_slice (test_options ["c0"; "c1"])
              serve_sixteen hello sixteen) as [Hb Hc].
  - cbn. lia.
  - cbn. lia.
  - split.
    + apply Hb. left. intros lo hi. reflexivity.
    + apply Hc.
      * intros lo hi. reflexivity.
      * intros slice lo hi. left. reflexivity.
Defined.

Lemma probe_failure {S : Type} (ch_hash : string -> nat -> nat -> nat)
    (fb : Strategy S) (opts : Options) (net : network) (u : URL) (st : Z)
    (s : S) :
  host u ∈ domains_to_cache opts -> cache_hosts opts <> [] ->
  (forall lo hi, status (net (cache_url ch_hash opts u 0) lo hi) = st) ->
  st <> 200%Z -> st <> 206%Z ->
  ConsistentHashingMode_Fetch ch_hash fb opts net u s =
  if fallback_class st then Fetch fb u s
  else (Err (ErrUnexpectedHTTPStatus st), s).
Proof.
  intros Hdom Hhosts Hst H200 H206. unfold ConsistentHashingMode_Fetch.
  rewrite bool_decide_eq_true_2 by done. cbn [negb].
  destruct (cache_hosts opts) as [| h hs]; [done |].
  unfold do_request. rewrite Hst.
  destruct (Z.eqb_spec st 200); [done |].
  destruct (Z.eqb_spec st 206); [done |].
  cbn [orb is_fallback_error]. reflexivity.
Qed.

(** C4.  The URL's host is cached, there is a cache host, and the cache
    host of slice 0 answers the probe with a status [st] other than 200
    and 206.  If [st] is of the fallback class (the retried statuses and
    every 5xx), [Fetch] is exactly the fallback's [Fetch] on the original
    URL: with the counting strategy of the test, one more [Fetch] call
    and no [DoRequest] call.  Otherwise [Fetch] returns
    [ErrUnexpectedHTTPStatus] and leaves the fallback as it was. *)
Theorem probe_failure_falls_back (ch_hash : string -> nat -> nat -> nat)
    (opts : Options) (net : network) (u : URL) (st : Z) :
  host u ∈ domains_to_cache opts -> cache_hosts opts <> [] ->
  (forall lo hi, status (net (cache_url ch_hash opts u 0) lo hi) = st) ->
  st <> 200%Z -> st <> 206%Z ->
  (fallback_class st = true ->
   (forall (S : Type) (fb : Strategy S) (s : S),
      ConsistentHashingMode_Fetch ch_hash fb opts net u s = Fetch fb u s) /\
   (forall s : testState,
      let out := ConsistentHashingMode_Fetch ch_hash testStrategy opts net u s in
      out.1 = Ok (zero_zero, (-1)%Z) /\
      fetchCalledCount out.2 = fetchCalledCount s + 1 /\
      doRequestCalledCount out.2 = doRequestCalledCount s)) /\
  (fallback_class st = false ->
   forall (S : Type) (fb : Strategy S) (s : S),
     ConsistentHashingMode_Fetch ch_hash fb opts net u s =
     (Err (ErrUnexpectedHTTPStatus st), s)).
Proof.
  intros Hdom Hhosts Hst H200 H206. split.
  - intros Hclass. split.
    + intros S fb s. rewrite (probe_failure _ _ _ _ _ st) by done.
      by rewrite Hclass.
    + intros s out. unfold out.
      rewrite (probe_failure _ _ _ _ _ st) by done. rewrite Hclass.
      cbn. repeat split. lia.
  - intros Hclass S fb s. rewrite (probe_failure _ _ _ _ _ st) by done.
    by rewrite Hclass.
Qed.

(** The two cases of [TestConsistentHashingFileFallback]: a cache host
    that answers 502, then one that answers 404, the counters starting
    at zero. *)
Lemma probe_failure_falls_back_witness :
  (let out := ConsistentHashingMode_Fetch by_slice testStrategy
                (test_options ["cache"]) (always 502) hello (mkTestState 0 0) in
   out.1 = Ok (zero_zero, (-1)%Z) /\
   fetchCalledCount out.2 = 1 /\ doRequestCalledCount out.2 = 0) /\
  ConsistentHashingMode_Fetch by_slice testStrategy
    (test_options ["cache"]) (always 404) hello (mkTestState 0 0) =
  (Err (ErrUnexpectedHTTPStatus 404), mkTestState 0 0).
Proof.
  split.
  - destruct (probe_failure_falls_back by_slice (test_options ["cache"])
                (always 502) hello 502%Z) as [H502 _].
    + cbn. by left.
    + discriminate.
    + intros lo hi. reflexivity.
    + discriminate.
    + discriminate.
    + destruct (H502 eq_refl) as [_ Hcount].
      exact (Hcount (mkTestState 0 0)).
  - destruct (probe_failure_falls_back by_slice (test_options ["cache"])
                (always 404) hello 404%Z) as [_ H404].
    + cbn. by left.
    + discriminate.
    + intros lo hi. reflexivity.
    + discriminate.
    + discriminate.
    + exact (H404 eq_refl testState testStrategy (mkTestState 0 0)).
Defined.

End DownloadFacts.

Module StringFacts.
Local Open Scope list_scope.

Lemma list_ascii_app s1 s2 :
  list_ascii_of_string (s1 ++ s2)%string =
  list_ascii_of_string s1 ++ list_ascii_of_string s2.
Proof. induction s1 as [| c s1 IH]; [done |]. simpl. f_equal. exact IH. Qed.

Lemma string_of_list_app (l1 l2 : list ascii) :
  string_of_list_ascii (l1 ++ l2) =
  (string_of_list_ascii l1 ++ string_of_list_ascii l2)%string.
Proof. induction l1 as [| c l1 IH]; [done |]. simpl. rewrite IH. reflexivity. Qed.

Lemma append_empty_r (s : string) : (s ++ "")%string = s.
Proof.
  induction s as [| c s IH]; [done |].
  change (String c s ++ "")%string with (String c (s ++ "")).
  by rewrite IH.
Qed.

Lemma length_list_ascii (s : string) :
  length (list_ascii_of_string s) = String.length s.
Proof. induction s as [| c s IH]; [done |]. cbn. by rewrite IH. Qed.

Lemma length_string_of_list (l : list ascii) :
  String.length (string_of_list_ascii l) = length l.
Proof. induction l as [| c l IH]; [done |]. cbn. by rewrite IH. Qed.

Lemma length_append (a b : string) :
  String.length (a ++ b)%string = (String.length a + String.length b)%nat.
Proof.
  rewrite <- !length_list_ascii, list_ascii_app. apply length_app.
Qed.

End StringFacts.

Module PathFacts.
Import filepath filepath_more StringFacts.
Local Open Scope list_scope.

Lemma split_sep_cons (l : list ascii) : exists h t, split_sep l = h :: t.
Proof.
  induction l as [| c r (h & t & IH)]; [by eexists _, _ |].
  simpl. destruct (Ascii.eqb c Separator); [by eexists _, _ |].
  rewrite IH. by eexists _, _.
Qed.

Lemma split_sep_app (l1 l2 : list ascii) :
  split_sep (l1 ++ Separator :: l2) = split_sep l1 ++ split_sep l2.
Proof.
  induction l1 as [| c r IH]; [done |].
  cbn [app split_sep]. destruct (Ascii.eqb c Separator).
  - by rewrite IH.
  - rewrite IH. destruct (split_sep_cons r) as (h & t & ->). done.
Qed.

Lemma split_sep_free (l : list ascii) :
  existsb (Ascii.eqb Separator) l = false -> split_sep l = [l].
Proof.
  induction l as [| c r IH]; [done |].
  cbn [existsb split_sep]. intros [Hc Hr]%orb_false_elim.
  rewrite Ascii.eqb_sym in Hc. rewrite Hc, (IH Hr). done.
Qed.

Lemma split_sep_pieces (l : list ascii) :
  Forall (fun piece => existsb (Ascii.eqb Separator) piece = false) (split_sep l).
Proof.
  induction l as [| c r IH]; [by repeat constructor |].
  cbn [split_sep]. destruct (Ascii.eqb c Separator) eqn:Hc.
  - by constructor.
  - destruct (split_sep_cons r) as (h & t & Heq). rewrite Heq in *.
    inversion IH; subst. constructor; [| done].
    cbn [existsb]. rewrite Ascii.eqb_sym, Hc. done.
Qed.

Lemma components_app (a b : string) :
  components (a ++ "/" ++ b) = components a ++ components b.
Proof.
  unfold components. rewrite !list_ascii_app.
  change (list_ascii_of_string "/") with [Separator]. cbn [app].
  by rewrite split_sep_app, fmap_app.
Qed.

Lemma components_sep_free (p : string) :
  Forall (fun c => sep_free c = true) (components p).
Proof.
  unfold components. apply Forall_fmap.
  eapply Forall_impl; [apply split_sep_pieces |].
  intros piece Hp. cbn. unfold sep_free.
  by rewrite list_ascii_of_string_of_list_ascii, Hp.
Qed.

Lemma components_element (c : string) :
  sep_free c = true -> components c = [c].
Proof.
  unfold sep_free, components. intros Hc%negb_true_iff.
  rewrite (split_sep_free _ Hc). cbn.
  by rewrite string_of_list_ascii_of_string.
Qed.

Lemma components_concat (kept : list string) :
  kept <> [] -> Forall (fun c => sep_free c = true) kept ->
  components (String.concat "/" kept) = kept.
Proof.
  induction kept as [| c rest IH]; [done |]. intros _ Hall.
  inversion Hall as [| ? ? Hc Hrest]; subst.
  destruct rest as [| c' rest'].
  - cbn. by apply components_element.
  - change (String.concat "/" (c :: c' :: rest'))
      with (c ++ "/" ++ String.concat "/" (c' :: rest'))%string.
    rewrite components_app, (components_element c Hc), IH; done.
Qed.

Lemma element_dotdot : element "..".
Proof. by repeat split. Qed.

Lemma clean_step_push rooted stack c :
  element c -> c <> ".." -> clean_step rooted stack c = c :: stack.
Proof.
  intros (H1 & H2 & _) H3. unfold clean_step.
  by repeat (destruct (decide _); [done |]).
Qed.

Lemma settled_push rooted stack c :
  settled rooted stack -> element c ->
  clean_step rooted stack c = c :: stack ->
  settled rooted (c :: stack).
Proof.
  intros [Hf Hall] Hc Hstep. split; [| by constructor].
  cbn [rev]. by rewrite fold_left_app, Hf.
Qed.

Lemma settled_pop rooted top below :
  settled rooted (top :: below) -> top <> ".." -> settled rooted below.
Proof.
  intros [Hf Hall] Htop. inversion Hall as [| ? ? Hel Hbelow]; subst.
  split; [| done].
  cbn [rev] in Hf. rewrite fold_left_app in Hf. cbn [fold_left] in Hf.
  rewrite (clean_step_push _ _ _ Hel Htop) in Hf. by injection Hf.
Qed.

Lemma settled_step rooted stack c :
  settled rooted stack -> sep_free c = true ->
  settled rooted (clean_step rooted stack c).
Proof.
  intros Hs Hc. unfold clean_step.
  destruct (decide (c = "")) as [| H1]; [done |].
  destruct (decide (c = ".")) as [| H2]; [done |].
  destruct (decide (c = "..")) as [-> | H3].
  - destruct stack as [| top below].
    + destruct rooted; [done |]. split; [done |].
      repeat constructor; apply element_dotdot.
    + destruct (decide (top = "..")) as [-> | Htop].
      * apply settled_push; [done | apply element_dotdot |].
        unfold clean_step. by repeat (destruct (decide _); try done).
      * by eapply settled_pop.
  - apply settled_push; [done | done |]. by apply clean_step_push.
Qed.

Lemma settled_fold rooted cs stack :
  settled rooted stack -> Forall (fun c => sep_free c = true) cs ->
  settled rooted (fold_left (clean_step rooted) cs stack).
Proof.
  revert stack. induction cs as [| c cs IH]; intros stack Hs Hall; [done |].
  inversion Hall; subst. cbn [fold_left]. apply IH; [| done].
  by apply settled_step.
Qed.

Lemma Clean_settled rooted p :
  settled rooted (fold_left (clean_step rooted) (components p) []).
Proof.
  apply settled_fold; [by split | apply components_sep_free].
Qed.

Lemma IsAbs_rooted body : IsAbs ("/" ++ body) = true.
Proof.
  change ("/" ++ body)%string with (String "/" body).
  unfold IsAbs, strings.HasPrefix. cbn -[ascii_dec].
  destruct (ascii_dec "/" "/"); [by destruct body | done].
Qed.

Lemma element_not_abs c rest :
  element c -> IsAbs (c ++ rest) = false.
Proof.
  intros (Hne & _ & Hfree). destruct c as [| a c]; [done |].
  unfold sep_free in Hfree. cbn in Hfree.
  apply negb_true_iff, orb_false_elim in Hfree as [Ha _].
  change (String a c ++ rest)%string with (String a (c ++ rest)).
  unfold IsAbs, strings.HasPrefix. cbn -[ascii_dec].
  by destruct (ascii_dec "/" a) as [<- | _].
Qed.

Lemma concat_not_abs kept :
  Forall element kept -> IsAbs (String.concat "/" kept) = false.
Proof.
  destruct kept as [| c rest]; [done |]. intros Hall.
  inversion Hall; subst. destruct rest.
  - cbn [String.concat]. rewrite <- (append_empty_r c).
    by apply element_not_abs.
  - by apply element_not_abs.
Qed.

Lemma Clean_of_stack rooted stack :
  settled rooted stack ->
  fold_left (clean_step rooted)
    (components (String.concat "/" (rev stack))) [] = stack.
Proof.
  intros [Hf Hall]. destruct stack as [| c rest]; [done |].
  rewrite components_concat; [done | |].
  - cbn [rev]. by intros []%app_eq_nil.
  - apply Forall_rev. eapply Forall_impl; [exact Hall |].
    by intros c' (_ & _ & Hc).
Qed.

Lemma Clean_rendered rooted stack :
  settled rooted stack ->
  let body := String.concat "/" (rev stack) in
  let out := (if rooted then "/" ++ body
              else if decide (body = "") then "." else body)%string in
  Clean out = out.
Proof.
  intros Hs body out. subst out. destruct rooted.
  - unfold Clean. rewrite IsAbs_rooted.
    change ("/" ++ body)%string with ("" ++ "/" ++ body)%string at 1.
    rewrite components_app.
    change (components "") with [""]. cbn [app fold_left].
    change (clean_step true [] "") with (@nil string).
    subst body. by rewrite (Clean_of_stack true stack Hs).
  - destruct (decide (body = "")) as [He | Hne]; [done |].
    unfold Clean. subst body. rewrite concat_not_abs
      by (apply Forall_rev; apply Hs).
    rewrite (Clean_of_stack false stack Hs).
    by destruct (decide _).
Qed.

Lemma Clean_idempotent (p : string) : Clean (Clean p) = Clean p.
Proof. exact (Clean_rendered (IsAbs p) _ (Clean_settled (IsAbs p) p)). Qed.

Lemma Clean_IsAbs (p : string) : IsAbs (Clean p) = IsAbs p.
Proof.
  unfold Clean. cbn zeta. destruct (IsAbs p) eqn:Habs.
  { apply IsAbs_rooted. }
  destruct (decide _); [done |].
  apply concat_not_abs, Forall_rev, Clean_settled.
Qed.



Lemma IsAbs_append (a b : string) : IsAbs a = true -> IsAbs (a ++ b) = true.
Proof.
  destruct a as [| c a]; [done |]. intros Ha.
  change (String c a ++ b)%string with (String c (a ++ b)).
  unfold IsAbs, strings.HasPrefix in *. cbn -[ascii_dec] in *.
  destruct (ascii_dec "/" c); [| done]. by destruct (a ++ b)%string.
Qed.

Lemma Join_rooted (a b : string) :
  IsAbs a = true -> Join a b = Clean (a ++ "/" ++ b).
Proof.
  intros Ha. unfold Join. destruct (decide (a = "")) as [-> |]; done.
Qed.

Lemma Join_IsAbs (a b : string) : IsAbs a = true -> IsAbs (Join a b) = true.
Proof.
  intros Ha. rewrite Join_rooted, Clean_IsAbs by done. by apply IsAbs_append.
Qed.

Lemma Join_clean (a b : string) :
  IsAbs a = true -> Clean (Join a b) = Join a b.
Proof. intros Ha. rewrite Join_rooted by done. apply Clean_idempotent. Qed.

Lemma Abs_rooted (p : string) (s : proc.state) :
  IsAbs p = true -> Abs p s = (Ok (Clean p), s).
Proof. intros Hp. unfold Abs. by rewrite Hp. Qed.

Lemma prefix_empty (s : string) : String.prefix "" s = true.
Proof. by destruct s. Qed.

Lemma prefix_append (a b c : string) :
  String.prefix b c = true -> String.prefix (a ++ b) (a ++ c) = true.
Proof.
  intros Hbc. induction a as [| x a IH]; [done |].
  change (String x a ++ b)%string with (String x (a ++ b)).
  change (String x a ++ c)%string with (String x (a ++ c)).
  cbn -[ascii_dec]. by destruct (ascii_dec x x).
Qed.

Lemma prefix_concat (l1 l2 : list string) :
  String.prefix (String.concat "/" l1) (String.concat "/" (l1 ++ l2)) = true.
Proof.
  induction l1 as [| x l1 IH]; [apply prefix_empty |].
  destruct l1 as [| y l1].
  - cbn [app String.concat]. destruct l2 as [| z l2].
    + rewrite <- (append_empty_r x). apply prefix_append, prefix_empty.
    + change (String.concat "/" (x :: z :: l2))
        with (x ++ "/" ++ String.concat "/" (z :: l2))%string.
      rewrite <- (append_empty_r x) at 1. apply prefix_append, prefix_empty.
  - change (String.concat "/" (x :: y :: l1))
      with (x ++ "/" ++ String.concat "/" (y :: l1))%string.
    change (String.concat "/" ((x :: y :: l1) ++ l2))
      with (x ++ "/" ++ String.concat "/" ((y :: l1) ++ l2))%string.
    by do 2 apply prefix_append.
Qed.

(** Without [..], cleaning only pushes or skips. *)
Lemma fold_inner rooted (cs stack : list string) :
  ".." ∉ cs ->
  exists pushed, fold_left (clean_step rooted) cs stack = pushed ++ stack.
Proof.
  revert stack. induction cs as [| c cs IH]; intros stack Hno.
  - by exists [].
  - apply not_elem_of_cons in Hno as [Hc Hcs]. cbn [fold_left].
    assert (Hstep : clean_step rooted stack c = stack \/
                    clean_step rooted stack c = c :: stack).
    { unfold clean_step. repeat (destruct (decide _); try by left).
      by right. }
    destruct Hstep as [-> | ->].
    + by apply IH.
    + destruct (IH (c :: stack) Hcs) as [pushed ->].
      exists (pushed ++ [c]). by rewrite <- app_assoc.
Qed.

(** A name without [..], joined to a rooted directory, stays below the
    directory as text. *)
Lemma Join_inner (dir name : string) :
  IsAbs dir = true -> ".." ∉ components name ->
  strings.HasPrefix (Join dir name) (Clean dir) = true.
Proof.
  intros Hd Hno. rewrite Join_rooted by done.
  unfold Clean. rewrite (IsAbs_append dir _ Hd), Hd. cbn zeta.
  rewrite components_app, fold_left_app.
  destruct (fold_inner true (components name)
              (fold_left (clean_step true) (components dir) []) Hno)
    as [pushed ->].
  rewrite rev_app_distr. unfold strings.HasPrefix.
  apply prefix_append, prefix_concat.
Qed.

Lemma weight_app (l1 l2 : list string) :
  weight (l1 ++ l2) = (weight l1 + weight l2)%nat.
Proof. apply sum_list_with_app. Qed.

Lemma weight_rev (l : list string) : weight (rev l) = weight l.
Proof.
  induction l as [| c l IH]; [done |]. cbn [rev].
  rewrite weight_app, IH. unfold weight. cbn. lia.
Qed.

Lemma weight_split (l : list ascii) :
  sum_list_with (fun piece => S (length piece)) (split_sep l) = S (length l).
Proof.
  induction l as [| c r IH]; [done |]. cbn [split_sep].
  destruct (Ascii.eqb c Separator).
  - cbn. by rewrite IH.
  - destruct (split_sep_cons r) as (h & t & Heq). rewrite Heq in *.
    cbn in *. lia.
Qed.

Lemma weight_components (p : string) :
  weight (components p) = S (String.length p).
Proof.
  unfold weight, components.
  rewrite <- length_list_ascii, <- weight_split.
  induction (split_sep (list_ascii_of_string p)) as [| piece l IH]; [done |].
  cbn. by rewrite IH, length_string_of_list.
Qed.

Lemma weight_step rooted stack c :
  (weight (clean_step rooted stack c) <= weight stack + S (String.length c))%nat.
Proof.
  unfold clean_step.
  destruct (decide (c = "")); [lia |].
  destruct (decide (c = ".")); [lia |].
  destruct (decide (c = "..")); [| unfold weight; cbn; lia].
  destruct stack as [| top below]; [destruct rooted; unfold weight; cbn; lia |].
  destruct (decide (top = "..")); unfold weight; cbn; lia.
Qed.

Lemma weight_fold rooted cs stack :
  (weight (fold_left (clean_step rooted) cs stack) <= weight stack + weight cs)%nat.
Proof.
  revert stack. induction cs as [| c cs IH]; intros stack; cbn [fold_left].
  - unfold weight. cbn. lia.
  - pose proof (IH (clean_step rooted stack c)).
    pose proof (weight_step rooted stack c).
    change (weight (c :: cs)) with (S (String.length c) + weight cs)%nat. lia.
Qed.

Lemma length_concat (l : list string) :
  String.length (String.concat "/" l) = (weight l - 1)%nat.
Proof.
  induction l as [| x l IH]; [done |]. destruct l as [| y l].
  - unfold weight. cbn. lia.
  - change (String.concat "/" (x :: y :: l))
      with (x ++ "/" ++ String.concat "/" (y :: l))%string.
    rewrite !length_append, IH.
    change (weight (x :: y :: l))
      with (S (String.length x) + weight (y :: l))%nat.
    change (weight (y :: l)) with (S (String.length y) + weight l)%nat.
    cbn [String.length]. lia.
Qed.

(** Cleaning a rooted path that ends in a separator drops at least the
    separator. *)
Lemma Clean_trailing (a : string) :
  IsAbs a = true ->
  (String.length (Clean (a ++ "/")) <= String.length a)%nat.
Proof.
  intros Ha. unfold Clean. rewrite (IsAbs_append a "/" Ha). cbn zeta.
  change (a ++ "/")%string with (a ++ "/" ++ "")%string.
  rewrite components_app, fold_left_app.
  change (components "") with [""]. cbn [fold_left].
  set (stack := fold_left (clean_step true) (components a) []).
  change (clean_step true stack "") with stack.
  destruct a as [| c a']; [done |].
  assert (c = "/"%char) as ->.
  { unfold IsAbs, strings.HasPrefix in Ha. cbn -[ascii_dec] in Ha.
    by destruct (ascii_dec "/" c). }
  assert (Hw : (weight stack <= S (String.length a'))%nat).
  { subst stack.
    change (String "/" a') with ("" ++ "/" ++ a')%string.
    rewrite components_app, fold_left_app.
    change (components "") with [""]. cbn [fold_left].
    change (clean_step true [] "") with (@nil string).
    pose proof (weight_fold true (components a') []) as Hf.
    rewrite weight_components in Hf. unfold weight in Hf at 2. cbn in Hf. lia. }
  rewrite length_append, length_concat, weight_rev.
  cbn [String.length]. lia.
Qed.

Lemma upto_last_sep_nil (l : list ascii) :
  upto_last_sep l = [] -> existsb (Ascii.eqb Separator) l = false.
Proof.
  destruct l as [| c r]; [done |]. cbn [upto_last_sep].
  by destruct (existsb _ (c :: r)).
Qed.

Lemma upto_last_sep_shape (l : list ascii) :
  upto_last_sep l = [] \/
  exists u, upto_last_sep l = u ++ [Separator] /\ (length u < length l)%nat.
Proof.
  induction l as [| c r IH]; [by left |].
  cbn [upto_last_sep]. destruct (existsb _ (c :: r)) eqn:Hex; [| by left].
  right. destruct IH as [Hnil | (u & -> & Hlen)].
  - rewrite Hnil. apply upto_last_sep_nil in Hnil.
    cbn [existsb] in Hex. rewrite Hnil, orb_false_r in Hex.
    apply Ascii.eqb_eq in Hex as <-. exists []. cbn. split; [done | lia].
  - exists (c :: u). cbn. split; [done | lia].
Qed.

Lemma Dir_shorter (p : string) :
  IsAbs p = true ->
  Dir p = "/" \/ (String.length (Dir p) < String.length p)%nat.
Proof.
  intros Hp. destruct p as [| c p']; [done |].
  assert (c = "/"%char) as ->.
  { unfold IsAbs, strings.HasPrefix in Hp. cbn -[ascii_dec] in Hp.
    by destruct (ascii_dec "/" c). }
  unfold Dir. cbn [list_ascii_of_string upto_last_sep existsb].
  rewrite Ascii.eqb_refl. cbn [orb].
  destruct (upto_last_sep_shape (list_ascii_of_string p'))
    as [-> | (u & -> & Hlen)]; [by left |].
  right. rewrite length_list_ascii in Hlen.
  change ("/"%char :: u ++ [Separator]) with (("/"%char :: u) ++ ["/"%char]).
  rewrite string_of_list_app.
  change (string_of_list_ascii ["/"%char]) with "/".
  pose proof (Clean_trailing (string_of_list_ascii ("/"%char :: u))) as Hc.
  rewrite length_string_of_list in Hc. cbn [length String.length] in *.
  specialize (Hc (IsAbs_rooted _)). lia.
Qed.

Lemma Dir_ne (p : string) : IsAbs p = true -> p <> "/" -> Dir p <> p.
Proof.
  intros Hp Hne Heq. destruct (Dir_shorter p Hp) as [Hd | Hlt].
  - by rewrite <- Heq, Hd in Hne.
  - rewrite Heq in Hlt. lia.
Qed.

End PathFacts.

Module CacheHostMore.
Import cli cli_spec cli_more CacheHostFacts.

(** The shape of a successful run. *)
Lemma orderCacheHosts_place srvs :
  Forall usable srvs ->
  orderCacheHosts srvs =
  Return (Ok (place srvs (replicate (Z.to_nat (highest_index srvs + 1)) ""))).
Proof.
  intros Hall. unfold orderCacheHosts.
  rewrite highestIndexOf_usable by done.
  pose proof (highest_index_nonneg srvs) as H0.
  pose proof (highest_index_bound srvs Hall) as Hb.
  rewrite Z.max_r by done.
  unfold maxStrings in *.
  replace ((highest_index srvs + 1 + 2 ^ 63) mod 2 ^ 64 - 2 ^ 63)
    with (highest_index srvs + 1)
    by (rewrite Z.mod_small by lia; lia).
  replace (highest_index srvs + 1 <? 0) with false
    by (symmetry; apply Z.ltb_ge; lia).
  replace (2 ^ 44 <? highest_index srvs + 1) with false
    by (symmetry; apply Z.ltb_ge; lia).
  cbn [orb]. apply placeHosts_usable. apply Forall_forall. intros srv Hin.
  split; [by eapply Forall_forall in Hall |].
  rewrite length_replicate.
  pose proof (index_le_highest srvs srv Hin). lia.
Qed.

Lemma filter_none {A} (P : A -> Prop) `{!forall x, Decision (P x)} (l : list A) :
  (forall x, x ∈ l -> ~ P x) -> filter P l = [].
Proof.
  induction l as [| x l IH]; intros Hno; [done |].
  rewrite filter_cons_False by (apply Hno; by left).
  apply IH. intros y Hy. apply Hno. by right.
Qed.

Lemma filter_index_unique (srvs : list SRV) srv :
  NoDup (index_of <$> srvs) -> srv ∈ srvs ->
  filter (fun x => index_of x = index_of srv) srvs = [srv].
Proof.
  induction srvs as [| x srvs IH]; intros Hnd Hin;
    [by apply elem_of_nil in Hin |].
  cbn [fmap list_fmap] in Hnd. apply NoDup_cons in Hnd as [Hx Hnd].
  apply elem_of_cons in Hin as [-> | Hin].
  - rewrite filter_cons_True by done. f_equal.
    apply filter_none. intros y Hy Heq. apply Hx. rewrite <- Heq.
    by apply list_elem_of_fmap_2.
  - rewrite filter_cons_False; [by apply IH |].
    intros Heq. apply Hx. rewrite Heq. by apply list_elem_of_fmap_2.
Qed.

Lemma host_at_unique srvs srv :
  NoDup (index_of <$> srvs) -> srv ∈ srvs ->
  host_at srvs (Z.to_nat (index_of srv)) = hostnameOf srv.
Proof.
  intros Hnd Hin. unfold host_at.
  pose proof (index_of_nonneg srv).
  rewrite Z2Nat.id by done.
  by rewrite filter_index_unique.
Qed.

Lemma host_at_unused srvs (j : nat) :
  (forall srv, srv ∈ srvs -> index_of srv <> Z.of_nat j) ->
  host_at srvs j = "".
Proof. intros H. unfold host_at. by rewrite filter_none. Qed.

(** X1. Records with indexes that are all usable and pairwise different:
    [orderCacheHosts] returns a slice one longer than the highest index,
    every record's hostname is at the record's index, and every other
    element is the empty string. *)
Theorem orderCacheHosts_distinct (srvs : list SRV) :
  Forall usable srvs -> NoDup (index_of <$> srvs) ->
  exists out,
    orderCacheHosts srvs = Return (Ok out) /\
    Z.of_nat (length out) = highest_index srvs + 1 /\
    (forall srv, srv ∈ srvs ->
       out !! Z.to_nat (index_of srv) = Some (hostnameOf srv)) /\
    (forall j : nat,
       (j < length out)%nat ->
       (forall srv, srv ∈ srvs -> index_of srv <> Z.of_nat j) ->
       out !! j = Some "").
Proof.
  intros Hall Hnd. eexists. split; [by apply orderCacheHosts_place |].
  pose proof (highest_index_nonneg srvs) as H0.
  rewrite length_place, length_replicate.
  split; [lia |]. split.
  - intros srv Hin.
    pose proof (index_of_nonneg srv). pose proof (index_le_highest srvs srv Hin).
    rewrite place_lookup by (rewrite length_replicate; lia).
    rewrite lookup_replicate_2 by lia. cbn [default].
    f_equal. by apply host_at_unique.
  - intros j Hj Hfree.
    rewrite place_lookup by (by rewrite length_replicate).
    rewrite lookup_replicate_2 by lia. cbn [default].
    f_equal. by apply host_at_unused.
Qed.

Lemma orderCacheHosts_distinct_witness :
  exists out,
    orderCacheHosts [mkSRV "c-2.x." 80; mkSRV "c-0.x." 8080] = Return (Ok out) /\
    Z.of_nat (length out) = 3 /\
    out !! 2%nat = Some "c-2.x" /\ out !! 0%nat = Some "c-0.x:8080" /\
    out !! 1%nat = Some "".
Proof.
  destruct (orderCacheHosts_distinct [mkSRV "c-2.x." 80; mkSRV "c-0.x." 8080])
    as (out & Hout & Hlen & Hat & Hfree).
  - repeat constructor; eexists; (split; [vm_compute; reflexivity | reflexivity]).
  - apply (bool_decide_unpack _). vm_compute. reflexivity.
  - exists out. split; [exact Hout |]. split; [exact Hlen |].
    split; [| split].
    + apply (Hat (mkSRV "c-2.x." 80)). by left.
    + apply (Hat (mkSRV "c-0.x." 8080)). right. by left.
    + apply Hfree.
      * change (highest_index _) with 2 in Hlen. lia.
      * intros srv Hin. apply elem_of_cons in Hin as [-> | Hin];
          [vm_compute; discriminate |].
        apply elem_of_cons in Hin as [-> | Hin]; [vm_compute; discriminate |].
        by apply elem_of_nil in Hin.
Defined.

Lemma highest_index_perm srvs1 srvs2 :
  srvs1 ≡ₚ srvs2 -> highest_index srvs1 = highest_index srvs2.
Proof.
  induction 1 as [| x l1 l2 _ IH | x y l | l1 l2 l3 _ IH1 _ IH2];
    rewrite ?highest_index_cons; [done | lia | lia | congruence].
Qed.

Lemma host_at_perm srvs1 srvs2 j :
  srvs1 ≡ₚ srvs2 -> NoDup (index_of <$> srvs1) ->
  host_at srvs1 j = host_at srvs2 j.
Proof.
  intros Hp Hnd.
  destruct (decide (Exists (fun srv => index_of srv = Z.of_nat j) srvs1))
    as [(srv & Hin & Hidx)%Exists_exists | Hno].
  - rewrite <- (Nat2Z.id j), <- Hidx.
    rewrite !host_at_unique; try done.
    + by rewrite <- Hp.
    + by rewrite <- Hp.
  - rewrite !host_at_unused; [done | |].
    + intros srv Hin Hidx. apply Hno, Exists_exists. exists srv. by rewrite Hp.
    + intros srv Hin Hidx. apply Hno, Exists_exists. by exists srv.
Qed.

(** X2. The order of the records does not matter when their indexes are
    usable and pairwise different: any permutation of the list gives the
    same slice. *)
Theorem orderCacheHosts_any_order (srvs1 srvs2 : list SRV) :
  srvs1 ≡ₚ srvs2 -> Forall usable srvs1 -> NoDup (index_of <$> srvs1) ->
  orderCacheHosts srvs1 = orderCacheHosts srvs2.
Proof.
  intros Hp Hall Hnd.
  assert (Hall2 : Forall usable srvs2) by (by rewrite <- Hp).
  rewrite !orderCacheHosts_place by done.
  rewrite <- (highest_index_perm _ _ Hp).
  do 2 f_equal. apply list_eq. intros j.
  pose proof (highest_index_nonneg srvs1) as H0.
  set (n := Z.to_nat (highest_index srvs1 + 1)).
  destruct (decide (j < n)%nat) as [Hj | Hj].
  - rewrite !place_lookup by (by rewrite length_replicate).
    fold (host_at srvs1 j). f_equal.
    rewrite lookup_replicate_2 by done. cbn [default].
    by apply host_at_perm.
  - rewrite !lookup_ge_None_2;
      [done | by rewrite length_place, length_replicate; lia
            | by rewrite length_place, length_replicate; lia].
Qed.

Lemma orderCacheHosts_any_order_witness :
  orderCacheHosts [mkSRV "c-2.x." 80; mkSRV "c-0.x." 8080] =
  orderCacheHosts [mkSRV "c-0.x." 8080; mkSRV "c-2.x." 80].
Proof.
  apply orderCacheHosts_any_order.
  - apply perm_swap.
  - repeat constructor; eexists; (split; [vm_compute; reflexivity | reflexivity]).
  - apply (bool_decide_unpack _). vm_compute. reflexivity.
Defined.

Lemma highestIndexOf_first_error srvs h :
  match first_error srvs with
  | Some err => highestIndexOf srvs h = Err err
  | None => exists h', highestIndexOf srvs h = Ok h'
  end.
Proof.
  revert h. induction srvs as [| srv srvs IH]; intros h; cbn.
  - by eexists.
  - destruct (cacheIndexFor (Target srv)); [apply IH | done].
Qed.

Lemma placeHosts_no_error srvs out :
  first_error srvs = None ->
  forall err, placeHosts srvs out <> Return (Err err).
Proof.
  revert out. induction srvs as [| srv srvs IH]; intros out Hfe err; cbn in *.
  - discriminate.
  - destruct (cacheIndexFor (Target srv)); [| done].
    destruct (_ && _); [by apply IH | discriminate].
Qed.

(** X3. [orderCacheHosts] returns an error exactly when some record's
    target cannot be turned into an index, and the error is that of the
    first such record in the list. *)
Theorem orderCacheHosts_first_error (srvs : list SRV) (err : error) :
  orderCacheHosts srvs = Return (Err err) <-> first_error srvs = Some err.
Proof.
  unfold orderCacheHosts.
  pose proof (highestIndexOf_first_error srvs 0) as Hh.
  destruct (first_error srvs) as [e |] eqn:Hfe.
  - rewrite Hh. split; intros [= ->]; done.
  - destruct Hh as [h' ->]. split; [| done].
    destruct (_ || _); [discriminate |].
    intros H. by apply placeHosts_no_error in H.
Qed.

End CacheHostMore.

Module HostnamePattern.
Import cli cli_more StringFacts.

Local Open Scope list_scope.

Lemma match_digits_dot_sound l g :
  match_digits_dot l = Some g ->
  g <> [] /\ forallb isDigit g = true /\ exists rest, l = g ++ "."%char :: rest.
Proof.
  revert g. induction l as [| c r IH]; intros g Hm; [done |].
  cbn [match_digits_dot] in Hm.
  destruct (isDigit c) eqn:Hc; [| done].
  destruct (match_digits_dot r) as [ds |] eqn:Hr.
  - injection Hm as <-. destruct (IH ds eq_refl) as (Hne & Hd & rest & ->).
    split; [done |]. split; [cbn; by rewrite Hc |]. by exists rest.
  - destruct r as [| d r']; [done |].
    destruct (Ascii.eqb_spec d "."%char) as [-> | _]; [| done].
    injection Hm as <-. split; [done |]. split; [cbn; by rewrite Hc |].
    by exists r'.
Qed.

Lemma match_digits_dot_complete g rest :
  g <> [] -> forallb isDigit g = true ->
  match_digits_dot (g ++ "."%char :: rest) = Some g.
Proof.
  induction g as [| d g IH]; intros Hne Hd; [done |].
  cbn in Hd. apply andb_prop in Hd as [Hd Hg].
  cbn [app match_digits_dot]. rewrite Hd.
  destruct g as [| d' g'].
  - cbn. done.
  - by rewrite IH.
Qed.

Lemma isDigit_inClass c : isDigit c = true -> inClass c = true.
Proof. intros H. unfold inClass. rewrite H. by rewrite orb_true_r. Qed.

Lemma isDigit_not_dash c : isDigit c = true -> Ascii.eqb c "-"%char = false.
Proof.
  intros H. destruct (Ascii.eqb_spec c "-"%char) as [-> | _]; [| done].
  by vm_compute in H.
Qed.

(** No match inside a run of digits that ends at a character outside the
    class. *)
Lemma match_hostname_digits_none g c rest :
  forallb isDigit g = true -> inClass c = false ->
  match_hostname (g ++ c :: rest) = None.
Proof.
  intros Hg Hc. induction g as [| d g IH].
  - cbn [app match_hostname]. rewrite Hc. cbn.
    destruct (Ascii.eqb_spec c "-"%char) as [-> | _]; [by vm_compute in Hc | done].
  - cbn in Hg. apply andb_prop in Hg as [Hd Hg].
    cbn [app match_hostname]. rewrite (isDigit_inClass d Hd), (IH Hg).
    cbn. by rewrite (isDigit_not_dash d Hd).
Qed.

Lemma match_hostname_sound l g :
  match_hostname l = Some g ->
  exists pre rest,
    l = pre ++ "-"%char :: g ++ "."%char :: rest /\
    forallb inClass pre = true /\ g <> [] /\ forallb isDigit g = true.
Proof.
  assert (Hdash : forall l, match_dash_digits_dot l = Some g ->
            exists rest, l = "-"%char :: g ++ "."%char :: rest /\
                         g <> [] /\ forallb isDigit g = true).
  { intros [| c r] Hm; [done |]. cbn in Hm.
    destruct (Ascii.eqb_spec c "-"%char) as [-> | _]; [| done].
    destruct (match_digits_dot_sound r g Hm) as (Hne & Hd & rest & ->).
    by exists rest. }
  induction l as [| c r IH]; intros Hm.
  - destruct (Hdash [] Hm) as (rest & Heq & _). done.
  - cbn [match_hostname] in Hm. destruct (inClass c) eqn:Hc.
    + destruct (match_hostname r) as [g' |] eqn:Hr.
      * injection Hm as ->.
        destruct (IH eq_refl) as (pre & rest & -> & Hpre & Hne & Hd).
        exists (c :: pre), rest. split; [done |]. split; [| done].
        cbn. by rewrite Hc.
      * destruct (Hdash _ Hm) as (rest & Heq & Hne & Hd).
        by exists [], rest.
    + destruct (Hdash _ Hm) as (rest & Heq & Hne & Hd).
      by exists [], rest.
Qed.

Lemma match_hostname_complete pre g rest :
  forallb inClass pre = true -> g <> [] -> forallb isDigit g = true ->
  match_hostname (pre ++ "-"%char :: g ++ "."%char :: rest) = Some g.
Proof.
  intros Hpre Hne Hd. induction pre as [| c pre IH].
  - cbn [app match_hostname].
    change (inClass "-"%char) with true. cbn match.
    rewrite match_hostname_digits_none by done.
    cbn. by apply match_digits_dot_complete.
  - cbn in Hpre. apply andb_prop in Hpre as [Hc Hpre].
    cbn [app match_hostname]. rewrite Hc. by rewrite IH.
Qed.

(** X4. [cacheIndexFor] succeeds with index [i] exactly on the hostnames
    made of: characters of the class [a-z0-9-], a dash, a non-empty run of
    digits that write [i] in decimal with [i] not above the largest int,
    a dot, and anything after it. *)
Theorem cacheIndexFor_shape (hostname : string) (i : Z) :
  cacheIndexFor hostname = Ok i <->
  exists pre digits rest,
    hostname = (pre ++ "-" ++ digits ++ "." ++ rest)%string /\
    all_chars inClass pre = true /\
    digits <> ""%string /\ all_chars isDigit digits = true /\
    decimal digits = i /\ (i <= MaxInt64)%Z.
Proof.
  unfold cacheIndexFor, FindStringSubmatch, all_chars. split.
  - destruct (match_hostname (list_ascii_of_string hostname)) as [g |] eqn:Hm;
      [| done].
    cbn [fmap option_fmap option_map]. intros Hat.
    destruct (match_hostname_sound _ _ Hm) as (pre & rest & Heq & Hpre & Hne & Hd).
    exists (string_of_list_ascii pre), (string_of_list_ascii g),
           (string_of_list_ascii rest).
    rewrite !list_ascii_of_string_of_list_ascii.
    unfold Atoi in Hat. rewrite list_ascii_of_string_of_list_ascii, Hd in Hat.
    destruct (decide (string_of_list_ascii g = ""%string)) as [He | _]; [done |].
    destruct (Z.leb_spec (decimal (string_of_list_ascii g)) MaxInt64) as [Hle | _];
      [| done].
    injection Hat as <-.
    split; [| split; [done | split; [| done]]].
    + rewrite <- (string_of_list_ascii_of_string hostname), Heq.
      rewrite string_of_list_app. f_equal.
      change ("-"%char :: g ++ "."%char :: rest)
        with (["-"%char] ++ (g ++ ["."%char] ++ rest)).
      by rewrite !string_of_list_app.
    + intros He. apply Hne.
      apply (f_equal list_ascii_of_string) in He.
      by rewrite list_ascii_of_string_of_list_ascii in He.
  - intros (pre & digits & rest & -> & Hpre & Hne & Hd & <- & Hle).
    rewrite !list_ascii_app.
    change (list_ascii_of_string "-") with ["-"%char].
    change (list_ascii_of_string ".") with ["."%char].
    cbn [app].
    rewrite match_hostname_complete; [| done | | done].
    + cbn [fmap option_fmap option_map].
      rewrite string_of_list_ascii_of_string. unfold Atoi.
      destruct (decide (digits = ""%string)); [done |].
      rewrite Hd. by destruct (Z.leb_spec (decimal digits) MaxInt64); [| lia].
    + intros He. apply Hne.
      rewrite <- (string_of_list_ascii_of_string digits). by rewrite He.
Qed.

End HostnamePattern.

Module ManifestMore.
Import proc multifile multifile_spec multifile_more ManifestFacts.

Lemma Abs_state p s : (filepath.Abs p s).2 = s.
Proof.
  unfold filepath.Abs, filepath.Getwd, bind, ret.
  destruct (filepath.IsAbs p); [done |]. by destruct (cwd s).
Qed.

Lemma Stat_state p s : (os.Stat p s).2 = s.
Proof.
  unfold os.Stat, bind. pose proof (Abs_state p s) as H.
  destruct (filepath.Abs p s) as [[k | e] s']; cbn in *; by subst.
Qed.

Lemma EnsureDestinationNotExist_state cfg d s :
  (cli.EnsureDestinationNotExist cfg d s).2 = s.
Proof.
  unfold cli.EnsureDestinationNotExist, bind, try, fail, ret.
  pose proof (Stat_state d s) as H.
  destruct (os.Stat d s) as [r s']; cbn in *; subst.
  by destruct (_ && _).
Qed.



Section Lines.
Variable ConsumerNull : string.
Variable url_Parse : string -> result unit.
Variable cfg : cli.config.

(** One turn of the loop, case by case. *)
Ltac turn Hline u d :=
  cbn [parseLines];
  destruct (decide (strings.TrimSpace _ = "")) as [Hline | Hline];
  [| unfold bind at 1, lift at 1;
     destruct (parseLine (strings.TrimSpace _)) as [[u d] | ?];
     [cbn [fst snd]; unfold bind at 1, lift at 1;
      destruct (url_Parse u) as [[] | ?] |] ].

Lemma parseLines_state lines :
  forall seenD man warn s,
    (parseLines ConsumerNull url_Parse cfg lines seenD man warn s).2 = s.
Proof.
  induction lines as [| text lines IH]; intros seenD man warn s; [done |].
  turn Hline u d; [apply IH | | done | done].
  destruct (negb _); [| apply IH].
  destruct (checkSeenDestinations _ _ _) as [[] | err].
  - unfold bind at 1.
    pose proof (EnsureDestinationNotExist_state cfg d s) as HE.
    destruct (cli.EnsureDestinationNotExist cfg d s) as [[[] | e] s'];
      cbn in HE; subst s'; [apply IH | done].
  - destruct (errors_Is _ _); [apply IH | done].
Qed.

(** X5. [parseManifest] only reads: it leaves the filesystem, the working
    directory and the call log as they were, whatever it returns. *)
Theorem parseManifest_reads_only (file : string) (s : state) :
  (parseManifest ConsumerNull url_Parse cfg file s).2 = s.
Proof. apply parseLines_state. Qed.





Lemma EnsureDestinationNotExist_force d s :
  cli.OptForce cfg = true ->
  cli.EnsureDestinationNotExist cfg d s = (Ok tt, s).
Proof.
  intros Hf. unfold cli.EnsureDestinationNotExist, bind, try, fail, ret.
  pose proof (Stat_state d s) as H.
  destruct (os.Stat d s) as [r s']; cbn in *; subst. by rewrite Hf.
Qed.

Lemma parseLines_same_result lines :
  cli.OptForce cfg = true \/ cli.OptOutputConsumer cfg = ConsumerNull ->
  forall seenD man warn s1 s2,
    (parseLines ConsumerNull url_Parse cfg lines seenD man warn s1).1 =
    (parseLines ConsumerNull url_Parse cfg lines seenD man warn s2).1.
Proof.
  intros Hcfg.
  induction lines as [| text lines IH]; intros seenD man warn s1 s2; [done |].
  cbn [parseLines].
  destruct (decide (strings.TrimSpace text = "")) as [_ | _]; [apply IH |].
  unfold bind, lift.
  destruct (parseLine (strings.TrimSpace text)) as [[u d] | ?]; [| done].
  cbn [fst snd].
  destruct (url_Parse u) as [[] | ?]; [| done].
  destruct (bool_decide_reflect (cli.OptOutputConsumer cfg = ConsumerNull))
    as [Hnull | Hnn]; cbn [negb]; [apply IH |].
  destruct Hcfg as [Hforce | ?]; [| done].
  destruct (checkSeenDestinations _ _ _) as [[] | err].
  - rewrite !EnsureDestinationNotExist_force by done. apply IH.
  - destruct (errors_Is _ _); [apply IH | done].
Qed.

(** X8. With the force option set, or under the null consumer, the
    result of [parseManifest] does not depend on the filesystem. *)
Theorem parseManifest_ignores_filesystem (file : string) (s1 s2 : state) :
  cli.OptForce cfg = true \/ cli.OptOutputConsumer cfg = ConsumerNull ->
  (parseManifest ConsumerNull url_Parse cfg file s1).1 =
  (parseManifest ConsumerNull url_Parse cfg file s2).1.
Proof. intros Hcfg. by apply parseLines_same_result. Qed.








End Lines.



Lemma parseManifest_ignores_filesystem_witness :
  (parseManifest "null" accept_url (cli.mkConfig "file" true)
     ("http://h/a /tmp" ++ newline) empty_root).1 =
  (parseManifest "null" accept_url (cli.mkConfig "file" true)
     ("http://h/a /tmp" ++ newline) extract_spec.tmp_out).1.
Proof.
  apply parseManifest_ignores_filesystem. by left.
Defined.




End ManifestMore.

Module ExtractMore.
Import proc extract_more filepath_more PathFacts.

Lemma keeps_ret {A} (a : A) : keeps_cwd (ret a).
Proof. by intros s. Qed.

Lemma keeps_fail {A} (e : error) : keeps_cwd (@fail A e).
Proof. by intros s. Qed.

Lemma keeps_lift {A} (r : result A) : keeps_cwd (lift r).
Proof. by intros s. Qed.

Lemma keeps_bind {A B} (m : M A) (k : A -> M B) :
  keeps_cwd m -> (forall a, keeps_cwd (k a)) -> keeps_cwd (bind m k).
Proof.
  intros Hm Hk s. unfold bind. specialize (Hm s).
  destruct (m s) as [[a | e] s1]; cbn in *; [| done].
  by rewrite (Hk a s1).
Qed.

Lemma keeps_try {A} (m : M A) : keeps_cwd m -> keeps_cwd (try m).
Proof.
  intros Hm s. unfold try. specialize (Hm s). by destruct (m s).
Qed.

Lemma keeps_record c : keeps_cwd (record c).
Proof. by intros s. Qed.

Lemma keeps_on_fs f : keeps_cwd (on_fs f).
Proof. intros s. unfold on_fs. by destruct (f (fs s)). Qed.

Lemma Abs_fixed p s : (filepath.Abs p s).2 = s.
Proof.
  unfold filepath.Abs, filepath.Getwd, bind, ret.
  destruct (filepath.IsAbs p); [done |]. by destruct (cwd s).
Qed.

Lemma keeps_Abs p : keeps_cwd (filepath.Abs p).
Proof. intros s. by rewrite Abs_fixed. Qed.

Lemma Abs_cwd p s1 s2 :
  cwd s1 = cwd s2 -> (filepath.Abs p s1).1 = (filepath.Abs p s2).1.
Proof.
  intros Hc. unfold filepath.Abs, filepath.Getwd, bind, ret.
  destruct (filepath.IsAbs p); [done |]. rewrite Hc. by destruct (cwd s2).
Qed.

Create HintDb keeps.
#[local] Hint Resolve keeps_ret keeps_fail keeps_lift keeps_try keeps_record
  keeps_on_fs keeps_Abs : keeps.

Ltac keeps :=
  repeat first
    [ progress eauto with keeps
    | apply keeps_bind; [| intros ?]
    | apply keeps_try
    | match goal with
      | |- keeps_cwd (match ?x with _ => _ end) => destruct x
      | |- keeps_cwd (if ?b then _ else _) => destruct b
      end ].

Lemma keeps_MkdirAll p m : keeps_cwd (os.MkdirAll p m).
Proof. unfold os.MkdirAll. keeps. Qed.

Lemma keeps_OpenFile p f m : keeps_cwd (os.OpenFile p f m).
Proof. unfold os.OpenFile. keeps. Qed.

Lemma keeps_Write h d : keeps_cwd (os.Write h d).
Proof. unfold os.Write. keeps. Qed.

Lemma keeps_Close h : keeps_cwd (os.Close h).
Proof. unfold os.Close. keeps. Qed.

Lemma keeps_Remove p : keeps_cwd (os.Remove p).
Proof. unfold os.Remove. keeps. Qed.

Lemma keeps_Link o n : keeps_cwd (os.Link o n).
Proof. unfold os.Link. keeps. Qed.

Lemma keeps_Symlink o n : keeps_cwd (os.Symlink o n).
Proof. unfold os.Symlink. keeps. Qed.

#[local] Hint Resolve keeps_MkdirAll keeps_OpenFile keeps_Write keeps_Close
  keeps_Remove keeps_Link keeps_Symlink : keeps.

Lemma keeps_guard h dest : keeps_cwd (extract.guardAgainstZipSlip h dest).
Proof. unfold extract.guardAgainstZipSlip. keeps. Qed.

#[local] Hint Resolve keeps_guard : keeps.

Lemma keeps_extractEntry e dest ow links :
  keeps_cwd (extract.extractEntry e dest ow links).
Proof.
  unfold extract.extractEntry, extract.Copy, extract.wrap_err. keeps.
Qed.

Lemma keeps_extractEntries es ne dest ow links :
  keeps_cwd (extract.extractEntries es ne dest ow links).
Proof.
  revert links. induction es as [| e es IH]; intros links; cbn.
  - destruct ne; eauto with keeps.
  - apply keeps_bind; [apply keeps_extractEntry | done].
Qed.

(** [filepath.Abs] reads the working directory and nothing else. *)
Lemma Abs_run p s :
  filepath.Abs p s = ((filepath.Abs p (mkState ∅ (cwd s) [])).1, s).
Proof.
  unfold filepath.Abs, filepath.Getwd, bind, ret.
  destruct (filepath.IsAbs p); [done |]. cbn. by destruct (cwd s).
Qed.

Lemma guard_run h dest s :
  extract.guardAgainstZipSlip h dest s =
  ((extract.guardAgainstZipSlip h dest (mkState ∅ (cwd s) [])).1, s).
Proof.
  unfold extract.guardAgainstZipSlip.
  destruct (decide (tar.Name h = "")); [done |].
  unfold bind, try.
  rewrite (Abs_run _ s), (Abs_run _ (mkState _ _ _)). cbn [cwd fst].
  destruct (filepath.Abs (filepath.Join dest (tar.Name h)) _).1; [| done].
  rewrite (Abs_run _ s), (Abs_run _ (mkState _ _ _)). cbn [cwd fst].
  destruct (filepath.Abs dest _).1; [| done].
  by destruct (negb _).
Qed.

Lemma guard_ok_iff h dest s :
  (extract.guardAgainstZipSlip h dest s).1 = Ok tt <->
  guard_accepts (cwd s) dest (tar.Name h).
Proof.
  rewrite guard_run. cbn [fst]. unfold guard_accepts.
  unfold extract.guardAgainstZipSlip.
  destruct (decide (tar.Name h = "")) as [He | Hne].
  { split; [done | by intros [? _]]. }
  unfold bind, try.
  destruct (filepath.Abs (filepath.Join dest (tar.Name h)) _)
    as [[target | e1] s1] eqn:H1; cbn [fst].
  2: { split; [done | by intros (_ & ? & ? & ? & _)]. }
  rewrite Abs_run in H1. injection H1 as H1 <-. cbn [cwd].
  destruct (filepath.Abs dest _) as [[destAbs | e2] s2] eqn:H2; cbn [fst].
  2: { split; [done | by intros (_ & ? & ? & _ & ? & _)]. }
  destruct (strings.HasPrefix target destAbs) eqn:Hp; cbn.
  - split; [| done]. intros _. split; [done |]. by exists target, destAbs.
  - split; [done |]. intros (_ & t & d & [= <-] & [= <-] & Hp').
    by rewrite Hp in Hp'.
Qed.

(** X12. With an absolute destination, the guard lets through every entry
    whose name is not empty and has no [..] element, and it leaves the
    state as it was. *)
Theorem guardAgainstZipSlip_accepts_inner (h : tar.Header) (dest : string)
    (s : state) :
  filepath.IsAbs dest = true ->
  tar.Name h <> "" ->
  ".." ∉ filepath.components (tar.Name h) ->
  extract.guardAgainstZipSlip h dest s = (Ok tt, s).
Proof.
  intros Hd Hne Hno. rewrite guard_run. f_equal.
  apply guard_ok_iff. split; [done |]. cbn [cwd].
  exists (filepath.Join dest (tar.Name h)), (filepath.Clean dest).
  rewrite !Abs_rooted by (done || by apply Join_IsAbs). cbn [fst].
  rewrite Join_clean by done. repeat split. by apply Join_inner.
Qed.

Lemma guardAgainstZipSlip_accepts_inner_witness :
  extract.guardAgainstZipSlip
    (tar.mkHeader tar.TypeReg "a/./b.txt" "" 420) "/tmp/out"
    (mkState ∅ None []) = (Ok tt, mkState ∅ None []).
Proof.
  apply guardAgainstZipSlip_accepts_inner; [reflexivity | discriminate |].
  apply (bool_decide_unpack _). vm_compute. reflexivity.
Defined.

Lemma extractEntry_ok e dest ow links s links' :
  (extract.extractEntry e dest ow links s).1 = Ok links' ->
  guard_accepts (cwd s) dest (tar.Name (tar.header e)) /\
  supported (tar.Typeflag (tar.header e)) = true /\
  (tar.Typeflag (tar.header e) = tar.TypeReg -> tar.body_err e = None).
Proof.
  unfold extract.extractEntry, bind.
  destruct (os.MkdirAll _ _ s) as [[[] | e0] s1] eqn:Hmk; [| done].
  assert (Hcwd : cwd s1 = cwd s).
  { pose proof (keeps_MkdirAll
      (filepath.Dir (filepath.Join dest (tar.Name (tar.header e))))
      os.perm0755 s) as Hk. by rewrite Hmk in Hk. }
  rewrite guard_run.
  destruct (extract.guardAgainstZipSlip _ _ _).1 as [[] | e1] eqn:Hg; [| done].
  assert (Hacc : guard_accepts (cwd s) dest (tar.Name (tar.header e))).
  { rewrite <- Hcwd. apply (guard_ok_iff _ _ s1). by rewrite guard_run. }
  unfold supported.
  destruct (Ascii.eqb _ tar.TypeXGlobalHeader) eqn:Hx.
  { intros _. split; [exact Hacc |]. split; [done |].
    intros Heq. by rewrite Heq in Hx. }
  destruct (Ascii.eqb _ tar.TypeDir) eqn:Hd.
  { intros _. split; [exact Hacc |]. split; [done |].
    intros Heq. by rewrite Heq in Hd. }
  destruct (Ascii.eqb _ tar.TypeReg) eqn:Hr.
  { intros Hok. split; [exact Hacc |]. split; [done |]. intros _.
    destruct (os.OpenFile _ _ _ s1) as [[f | e2] s2]; [| done].
    unfold try, extract.Copy, bind in Hok.
    destruct (os.Write f (tar.body e) s2) as [[[] | e3] s3]; [| done].
    by destruct (tar.body_err e). }
  destruct (Ascii.eqb _ tar.TypeSymlink || Ascii.eqb _ tar.TypeLink)%bool eqn:Hl.
  { intros _. split; [exact Hacc |]. split.
    - apply orb_true_iff in Hl as [-> | ->]; by rewrite ?orb_true_r.
    - intros Heq. by rewrite Heq in Hr. }
  done.
Qed.

Lemma extractEntries_ok es ne dest ow links s links' :
  (extract.extractEntries es ne dest ow links s).1 = Ok links' ->
  ne = None /\
  Forall (fun e =>
    guard_accepts (cwd s) dest (tar.Name (tar.header e)) /\
    supported (tar.Typeflag (tar.header e)) = true /\
    (tar.Typeflag (tar.header e) = tar.TypeReg -> tar.body_err e = None)) es.
Proof.
  revert links s. induction es as [| e es IH]; intros links s; cbn.
  - destruct ne; [done |]. by intros _.
  - unfold bind.
    destruct (extract.extractEntry e dest ow links s) as [[l1 | e1] s1] eqn:He;
      [| done].
    intros Hok. destruct (IH _ _ Hok) as [Hne Hall]. split; [done |].
    assert (Hcwd : cwd s1 = cwd s).
    { pose proof (keeps_extractEntry e dest ow links s) as Hk.
      by rewrite He in Hk. }
    rewrite Hcwd in Hall. constructor; [| done].
    apply (extractEntry_ok e dest ow links s l1). by rewrite He.
Qed.

(** X13. When [TarFile] returns no error, the peek, the set-up of the
    decompressor and the end of the tar reader were free of errors, and
    every entry of the archive had a name that is not empty, an absolute
    target that starts with the text of the absolute destination, one of
    the five type flags the loop has a case for, and, for a regular file,
    a body that was copied without error. *)
Theorem TarFile_ok_entries (r : extract.archive) (dest : string)
    (ow : bool) (s : state) :
  (extract.TarFile r dest ow s).1 = Ok tt ->
  extract.peek_err r = None /\
  (forall err, extract.decompressor r <> Some (Some err)) /\
  extract.next_err r = None /\
  forall e, e ∈ extract.entries r ->
    guard_accepts (cwd s) dest (tar.Name (tar.header e)) /\
    supported (tar.Typeflag (tar.header e)) = true /\
    (tar.Typeflag (tar.header e) = tar.TypeReg -> tar.body_err e = None).
Proof.
  unfold extract.TarFile.
  destruct (extract.peek_err r); [done |].
  unfold bind at 1.
  destruct (extract.decompressor r) as [[err |] |]; [done | |]; cbn.
  all: unfold bind at 1;
    destruct (extract.extractEntries _ _ _ _ _ s) as [[links | e1] s1] eqn:He;
      [| done];
    intros _;
    destruct (extractEntries_ok (extract.entries r) (extract.next_err r)
                dest ow [] s links) as [Hne Hall]; [by rewrite He |];
    split; [done |]; split; [done |]; split; [done |];
    intros e0 Hin; exact (proj1 (Forall_forall _ _) Hall e0 Hin).
Qed.

Lemma TarFile_ok_entries_witness :
  let r := extract_spec.plain
             [extract_spec.regular "a/b.txt"; extract_spec.symbolic "l" "a"] in
  extract.peek_err r = None /\
  (forall err, extract.decompressor r <> Some (Some err)) /\
  extract.next_err r = None /\
  forall e, e ∈ extract.entries r ->
    guard_accepts (Some "/") "/tmp/out" (tar.Name (tar.header e)) /\
    supported (tar.Typeflag (tar.header e)) = true /\
    (tar.Typeflag (tar.header e) = tar.TypeReg -> tar.body_err e = None).
Proof.
  apply (TarFile_ok_entries _ "/tmp/out" true extract_spec.tmp_out).
  vm_compute. reflexivity.
Defined.

Lemma mkdir_all_is_dir n k perm f f' :
  os.mkdir_all n k perm f = Ok f' -> os.is_dir f' k = true.
Proof.
  assert (Hins : forall g p, os.is_dir (<[k := NDir p]> g) k = true).
  { intros g p. unfold os.is_dir, os.lookup_node.
    destruct (decide (k = "/")); [done |]. by rewrite lookup_insert_eq. }
  destruct n as [| n]; cbn.
  all: destruct (os.lookup_node f k) as [[] |] eqn:Hl; try done.
  1, 2: intros [= <-]; unfold os.is_dir; by rewrite Hl.
  destruct (os.mkdir_all n (filepath.Dir k) perm f) as [f1 | e1]; [| done].
  unfold os.mkdir. destruct (os.parent_check f1 k); [| done].
  destruct (os.lookup_node f1 k); [done |]. intros [= <-]. apply Hins.
Qed.

Lemma MkdirAll_is_dir path perm s :
  (os.MkdirAll path perm s).1 = Ok tt ->
  exists k, (filepath.Abs path s).1 = Ok k /\
            os.is_dir (fs (os.MkdirAll path perm s).2) k = true.
Proof.
  unfold os.MkdirAll, bind, record.
  rewrite Abs_run. cbn [cwd fst].
  destruct (filepath.Abs path _).1 as [k | e] eqn:Ha; [| done].
  unfold on_fs. cbn [fs].
  destruct (os.mkdir_all _ k perm (fs s)) as [f' | e] eqn:Hm; [| done].
  intros _. exists k. split.
  - by rewrite Abs_run, Ha.
  - cbn. by eapply mkdir_all_is_dir.
Qed.

(** X14. The guard runs after the parent directory is made: when the
    guard rejects an entry and [MkdirAll] of the parent of its target
    succeeds, the loop body returns the guard's error, its one call is that
    [MkdirAll], and the parent directory exists afterwards. *)
Theorem extractEntry_rejected_after_mkdir (e : tar.entry) (dest : string)
    (ow : bool) (links : list extract.link) (s : state) (err : error) :
  (extract.guardAgainstZipSlip (tar.header e) dest s).1 = Err err ->
  (os.MkdirAll (filepath.Dir (filepath.Join dest (tar.Name (tar.header e))))
               os.perm0755 s).1 = Ok tt ->
  exists k,
    extract.extractEntry e dest ow links s =
      (Err err,
       mkState (fs (extract.extractEntry e dest ow links s).2) (cwd s)
         (calls s ++
          [SysMkdirAll
             (filepath.Dir (filepath.Join dest (tar.Name (tar.header e))))
             os.perm0755])) /\
    (filepath.Abs
       (filepath.Dir (filepath.Join dest (tar.Name (tar.header e)))) s).1
      = Ok k /\
    os.is_dir (fs (extract.extractEntry e dest ow links s).2) k = true.
Proof.
  intros Hg Hmk.
  destruct (MkdirAll_is_dir _ _ _ Hmk) as (k & Hk & Hdir).
  exists k. unfold extract.extractEntry, bind.
  pose proof (keeps_MkdirAll
    (filepath.Dir (filepath.Join dest (tar.Name (tar.header e))))
    os.perm0755 s) as Hcwd.
  destruct (CallLog.logs_MkdirAll
    (filepath.Dir (filepath.Join dest (tar.Name (tar.header e))))
    os.perm0755 s) as (new & Hcalls & ->).
  destruct (os.MkdirAll _ _ s) as [[[] | e0] s1] eqn:Hs1; [| done].
  cbn [fst snd] in *.
  rewrite guard_run, Hcwd. rewrite guard_run in Hg. cbn [fst] in Hg.
  rewrite Hg. cbn [fst snd]. repeat split; [| done | done].
  f_equal. destruct s1. cbn in *. by subst.
Qed.

Lemma extractEntry_rejected_after_mkdir_witness :
  exists k,
    extract.extractEntry (extract_spec.regular "../evil/x") "/tmp/out" false []
        extract_spec.tmp_out =
      (Err (Wrapf "outside of target directory" ErrZipSlip),
       mkState
         (fs (extract.extractEntry (extract_spec.regular "../evil/x")
                "/tmp/out" false [] extract_spec.tmp_out).2)
         (Some "/") [SysMkdirAll "/tmp/evil" os.perm0755]) /\
    (filepath.Abs "/tmp/evil" extract_spec.tmp_out).1 = Ok k /\
    os.is_dir
      (fs (extract.extractEntry (extract_spec.regular "../evil/x")
             "/tmp/out" false [] extract_spec.tmp_out).2) k = true.
Proof.
  apply (extractEntry_rejected_after_mkdir
           (extract_spec.regular "../evil/x") "/tmp/out" false []
           extract_spec.tmp_out
           (Wrapf "outside of target directory" ErrZipSlip));
    vm_compute; reflexivity.
Defined.

Lemma Remove_run p s :
  filepath.IsAbs p = true -> filepath.Clean p = p ->
  os.Remove p s =
  match os.remove p (fs s) with
  | Ok f' => (Ok tt, mkState f' (cwd s) (calls s ++ [SysRemove p]))
  | Err e => (Err e, mkState (fs s) (cwd s) (calls s ++ [SysRemove p]))
  end.
Proof.
  intros Ha Hc. unfold os.Remove, bind, record.
  rewrite Abs_rooted by done. rewrite Hc. unfold on_fs. cbn.
  by destruct (os.remove p (fs s)).
Qed.

Lemma Symlink_run o p s :
  filepath.IsAbs p = true -> filepath.Clean p = p ->
  os.Symlink o p s =
  match os.symlink_node o p (fs s) with
  | Ok f' => (Ok tt, mkState f' (cwd s) (calls s ++ [SysSymlink o p]))
  | Err e => (Err e, mkState (fs s) (cwd s) (calls s ++ [SysSymlink o p]))
  end.
Proof.
  intros Ha Hc. unfold os.Symlink, bind, record.
  rewrite Abs_rooted by done. rewrite Hc. unfold on_fs. cbn.
  by destruct (os.symlink_node o p (fs s)).
Qed.

Lemma Link_run o p s :
  filepath.IsAbs o = true -> filepath.Clean o = o ->
  filepath.IsAbs p = true -> filepath.Clean p = p ->
  os.Link o p s =
  match os.link_node o p (fs s) with
  | Ok f' => (Ok tt, mkState f' (cwd s) (calls s ++ [SysLink o p]))
  | Err e => (Err e, mkState (fs s) (cwd s) (calls s ++ [SysLink o p]))
  end.
Proof.
  intros Ha Hc Ha' Hc'. unfold os.Link, bind, record.
  rewrite Abs_rooted by done. rewrite Hc.
  rewrite Abs_rooted by done. rewrite Hc'. unfold on_fs. cbn.
  by destruct (os.link_node o p (fs s)).
Qed.

Lemma placed_lookup f k : placed f k -> os.lookup_node f k = f !! k.
Proof.
  intros (_ & _ & Hne & _). unfold os.lookup_node. by destruct (decide _).
Qed.

Lemma placed_parent f k : placed f k -> os.parent_check f k = Ok tt.
Proof.
  intros (_ & _ & _ & Hd). unfold os.parent_check, os.is_dir in *.
  by destruct (os.lookup_node f (filepath.Dir k)) as [[] |].
Qed.

Lemma placed_delete f k : placed f k -> placed (delete k f) k.
Proof.
  intros (Ha & Hc & Hne & Hd). repeat split; try done.
  unfold os.is_dir, os.lookup_node in *.
  destruct (decide (filepath.Dir k = "/")); [done |].
  rewrite lookup_delete_ne; [done |].
  intros Heq. by apply (Dir_ne k Ha Hne).
Qed.

(** What [os.Remove] does to a placed name. *)
Lemma remove_placed f k :
  os.remove k f =
  match f !! k with
  | None => Err ErrNotExist
  | Some _ => if nonempty_dir f k then Err ErrNotEmpty else Ok (delete k f)
  end.
Proof.
  unfold os.remove, nonempty_dir.
  destruct (f !! k) as [[] |]; try done.
Qed.

(** The removal both link functions start with. *)
Lemma overwrite_run msg p s :
  placed (fs s) p ->
  (let* r := try (os.Remove p) in
   match r with
   | Err err =>
       if negb (os.IsNotExist err) then fail (Wrapf msg err) else ret tt
   | Ok _ => ret tt
   end) s =
  if nonempty_dir (fs s) p
  then (Err (Wrapf msg ErrNotEmpty),
        mkState (fs s) (cwd s) (calls s ++ [SysRemove p]))
  else (Ok tt, mkState (delete p (fs s)) (cwd s) (calls s ++ [SysRemove p])).
Proof.
  intros (Ha & Hc & _). unfold bind, try.
  rewrite Remove_run, remove_placed by done.
  destruct (fs s !! p) as [n |] eqn:Hl.
  - by destruct (nonempty_dir (fs s) p).
  - unfold nonempty_dir. rewrite Hl. cbn. by rewrite delete_id.
Qed.

(** X15. [createSymlink] on a resolved name in an existing directory.
    Without [overwrite], a name that exists is refused with [ErrExist] and
    nothing changes.  With [overwrite], a directory that is not empty is
    refused with the wrapped error of [os.Remove] and nothing changes.
    Otherwise (the name is free, or [overwrite] is set and the name is not
    a directory with something in it) the call succeeds and the name is a
    symbolic link with [oldName] as target text, whatever it was before. *)
Theorem createSymlink_outcome (oldName newName : string) (overwrite : bool)
    (s : state) :
  placed (fs s) newName ->
  (overwrite = false -> is_Some (fs s !! newName) ->
   (extract.createSymlink oldName newName overwrite s).1 = Err ErrExist /\
   fs (extract.createSymlink oldName newName overwrite s).2 = fs s) /\
  (overwrite = true -> nonempty_dir (fs s) newName = true ->
   (extract.createSymlink oldName newName overwrite s).1 =
     Err (Wrapf "error removing existing symlink/file" ErrNotEmpty) /\
   fs (extract.createSymlink oldName newName overwrite s).2 = fs s) /\
  ((fs s !! newName = None \/
    overwrite = true /\ nonempty_dir (fs s) newName = false) ->
   (extract.createSymlink oldName newName overwrite s).1 = Ok tt /\
   fs (extract.createSymlink oldName newName overwrite s).2 =
     <[newName := NSymlink oldName]> (fs s)).
Proof.
  intros Hp. pose proof Hp as (Ha & Hc & Hne & Hd).
  remember (extract.createSymlink oldName newName overwrite s) as out eqn:Hout.
  unfold extract.createSymlink in Hout. destruct overwrite.
  - unfold bind at 1 in Hout. rewrite (overwrite_run _ _ _ Hp) in Hout.
    destruct (nonempty_dir (fs s) newName) eqn:Hn.
    + subst out. split; [done |]. split; [done |].
      intros [Hnone | [_ ?]]; [| done].
      unfold nonempty_dir in Hn. by rewrite Hnone in Hn.
    + split; [done |]. split; [done |]. intros _.
      rewrite Symlink_run in Hout by done. cbn [fs] in Hout.
      unfold os.symlink_node in Hout.
      rewrite (placed_parent _ _ (placed_delete _ _ Hp)) in Hout.
      rewrite (placed_lookup _ _ (placed_delete _ _ Hp)), lookup_delete_eq
        in Hout.
      subst out. cbn. by rewrite insert_delete_eq.
  - unfold bind, ret in Hout. rewrite Symlink_run in Hout by done.
    unfold os.symlink_node in Hout.
    rewrite (placed_parent _ _ Hp), (placed_lookup _ _ Hp) in Hout.
    destruct (fs s !! newName) as [n |] eqn:Hl; subst out; cbn.
    + split; [done |]. split; [done |]. by intros [? | [? _]].
    + split; [by intros _ [? ?] |]. split; [done |]. done.
Qed.

Lemma placed_tmp_out name :
  filepath.Dir name = "/tmp/out" -> filepath.IsAbs name = true ->
  filepath.Clean name = name ->
  placed (fs extract_spec.tmp_out) name.
Proof.
  intros Hd Ha Hc. repeat split; try done.
  - intros ->. by vm_compute in Hd.
  - by rewrite Hd.
Qed.

Lemma createSymlink_outcome_witness :
  (extract.createSymlink "../x" "/tmp/out/l" true extract_spec.tmp_out).1
    = Ok tt /\
  fs (extract.createSymlink "../x" "/tmp/out/l" true extract_spec.tmp_out).2
    = <["/tmp/out/l" := NSymlink "../x"]> (fs extract_spec.tmp_out).
Proof.
  apply (createSymlink_outcome "../x" "/tmp/out/l" true extract_spec.tmp_out).
  - apply placed_tmp_out; reflexivity.
  - left. reflexivity.
Defined.

(** X16. [createHardLink] on a resolved name in an existing directory,
    from another resolved name that is not a directory: the same three
    outcomes as for [createSymlink], the new name being a second name for
    the node of the old one on success. *)
Theorem createHardLink_outcome (oldName newName : string) (overwrite : bool)
    (s : state) (n : node) :
  placed (fs s) newName ->
  filepath.IsAbs oldName = true -> filepath.Clean oldName = oldName ->
  oldName <> newName ->
  fs s !! oldName = Some n -> (forall perm, n <> NDir perm) ->
  (overwrite = false -> is_Some (fs s !! newName) ->
   (extract.createHardLink oldName newName overwrite s).1 = Err ErrExist /\
   fs (extract.createHardLink oldName newName overwrite s).2 = fs s) /\
  (overwrite = true -> nonempty_dir (fs s) newName = true ->
   (extract.createHardLink oldName newName overwrite s).1 =
     Err (Wrapf "error removing existing file" ErrNotEmpty) /\
   fs (extract.createHardLink oldName newName overwrite s).2 = fs s) /\
  ((fs s !! newName = None \/
    overwrite = true /\ nonempty_dir (fs s) newName = false) ->
   (extract.createHardLink oldName newName overwrite s).1 = Ok tt /\
   fs (extract.createHardLink oldName newName overwrite s).2 =
     <[newName := n]> (fs s)).
Proof.
  intros Hp Hao Hco Hdiff Hold Hnd. pose proof Hp as (Ha & Hc & Hne & Hd).
  remember (extract.createHardLink oldName newName overwrite s) as out eqn:Hout.
  unfold extract.createHardLink in Hout. destruct overwrite.
  - unfold bind at 1 in Hout. rewrite (overwrite_run _ _ _ Hp) in Hout.
    destruct (nonempty_dir (fs s) newName) eqn:Hn.
    + subst out. split; [done |]. split; [done |].
      intros [Hnone | [_ ?]]; [| done].
      unfold nonempty_dir in Hn. by rewrite Hnone in Hn.
    + split; [done |]. split; [done |]. intros _.
      rewrite Link_run in Hout by done. cbn [fs] in Hout.
      unfold os.link_node in Hout.
      rewrite lookup_delete_ne, Hold in Hout by done.
      rewrite (placed_parent _ _ (placed_delete _ _ Hp)) in Hout.
      rewrite (placed_lookup _ _ (placed_delete _ _ Hp)), lookup_delete_eq
        in Hout.
      subst out. destruct n; cbn; [by destruct (Hnd perm) | |];
        by rewrite insert_delete_eq.
  - unfold bind, ret in Hout. rewrite Link_run in Hout by done.
    unfold os.link_node in Hout. rewrite Hold in Hout.
    rewrite (placed_parent _ _ Hp), (placed_lookup _ _ Hp) in Hout.
    destruct n as [perm | |]; [by destruct (Hnd perm) | |].
    all: destruct (fs s !! newName) as [n' |] eqn:Hl; subst out; cbn.
    all: split; [try done; by intros _ [? ?] |]; split; [done |];
      try done; by intros [? | [? _]].
Qed.

Lemma createHardLink_outcome_witness :
  (extract.createHardLink "/tmp/out/a" "/tmp/out/b" false tmp_out_a).1
    = Ok tt /\
  fs (extract.createHardLink "/tmp/out/a" "/tmp/out/b" false tmp_out_a).2 =
    <["/tmp/out/b" := NFile 384 [Byte.x62; Byte.x63]]> (fs tmp_out_a).
Proof.
  apply (createHardLink_outcome "/tmp/out/a" "/tmp/out/b" false tmp_out_a
           (NFile 384 [Byte.x62; Byte.x63])).
  - repeat split; try discriminate; vm_compute; reflexivity.
  - reflexivity.
  - reflexivity.
  - discriminate.
  - vm_compute. reflexivity.
  - discriminate.
  - left. vm_compute. reflexivity.
Defined.

(** X17. A hard link onto its own source, with [overwrite]: the name is
    removed first, so the link fails with [ErrNotExist] and the node is
    gone. *)
Theorem createHardLink_onto_itself (name : string) (s : state) :
  placed (fs s) name ->
  is_Some (fs s !! name) -> nonempty_dir (fs s) name = false ->
  (extract.createHardLink name name true s).1 = Err ErrNotExist /\
  fs (extract.createHardLink name name true s).2 = delete name (fs s).
Proof.
  intros Hp Hsome Hn. pose proof Hp as (Ha & Hc & Hne & Hd).
  remember (extract.createHardLink name name true s) as out eqn:Hout.
  unfold extract.createHardLink in Hout.
  unfold bind at 1 in Hout. rewrite (overwrite_run _ _ _ Hp), Hn in Hout.
  rewrite Link_run in Hout by done. cbn [fs] in Hout.
  unfold os.link_node in Hout. rewrite lookup_delete_eq in Hout.
  by subst out.
Qed.

Lemma createHardLink_onto_itself_witness :
  (extract.createHardLink "/tmp/out/a" "/tmp/out/a" true tmp_out_a).1
    = Err ErrNotExist /\
  fs (extract.createHardLink "/tmp/out/a" "/tmp/out/a" true tmp_out_a).2
    = delete "/tmp/out/a" (fs tmp_out_a).
Proof.
  apply (createHardLink_onto_itself "/tmp/out/a" tmp_out_a).
  - repeat split; try discriminate; vm_compute; reflexivity.
  - exists (NFile 384 [Byte.x62; Byte.x63]). vm_compute. reflexivity.
  - vm_compute. reflexivity.
Defined.






Lemma mkdir_all_errors n k perm f e :
  os.mkdir_all n k perm f = Err e -> os_error e = true.
Proof.
  revert k. induction n as [| n IH]; intros k; cbn.
  - destruct (os.lookup_node f k) as [[] |]; try done; by intros [= <-].
  - destruct (os.lookup_node f k) as [[] |]; try done; try by intros [= <-].
    destruct (os.mkdir_all n (filepath.Dir k) perm f) as [f1 | e1] eqn:Hm.
    + unfold os.mkdir, os.parent_check.
      destruct (os.lookup_node f1 (filepath.Dir k)) as [[] |];
        try by intros [= <-].
      destruct (os.lookup_node f1 k); by intros [= <-].
    + intros [= <-]. by eapply IH.
Qed.

Lemma MkdirAll_errors p perm s e :
  (os.MkdirAll p perm s).1 = Err e -> os_error e = true.
Proof.
  unfold os.MkdirAll, bind, record. rewrite Abs_run. cbn [cwd fst].
  destruct (filepath.Abs p _).1 as [k | e0] eqn:Ha.
  - unfold on_fs. cbn [fs].
    destruct (os.mkdir_all _ k perm (fs s)) as [f' | e1] eqn:Hm; [done |].
    intros [= <-]. by eapply mkdir_all_errors.
  - intros [= <-]. revert Ha.
    unfold filepath.Abs, filepath.Getwd, bind, ret.
    destruct (filepath.IsAbs p); [done |]. cbn.
    destruct (cwd s); [done |]. by intros [= <-].
Qed.

Lemma wrap_err_errors msg (m : M unit) s e :
  (extract.wrap_err msg m s).1 = Err e -> exists e', e = Wrapf msg e'.
Proof.
  unfold extract.wrap_err, bind, try.
  destruct (m s) as [[[] | e'] s1]; [done |]. intros [= <-]. by exists e'.
Qed.

Lemma createLinks_errors links dest ow s e :
  Forall link_typed links ->
  (extract.createLinks links dest ow s).1 = Err e ->
  os_error e = true \/ exists msg e', e = Wrapf msg e'.
Proof.
  intros Hall. revert s.
  induction Hall as [| l links Hl _ IH]; intros s; [done |].
  cbn [extract.createLinks]. unfold bind at 1.
  destruct (os.MkdirAll _ _ s) as [[[] | e0] s1] eqn:Hmk.
  2: { intros [= <-]. left. eapply MkdirAll_errors. by rewrite Hmk. }
  unfold bind at 1.
  destruct Hl as [Hl | Hl]; rewrite Hl.
  - change (Ascii.eqb tar.TypeLink tar.TypeLink) with true. cbn match.
    destruct (extract.wrap_err _ _ s1) as [[[] | e1] s2] eqn:Hw.
    + apply IH.
    + intros [= <-]. right. exists "error creating hard link".
      eapply wrap_err_errors. by rewrite Hw.
  - change (Ascii.eqb tar.TypeSymlink tar.TypeLink) with false.
    change (Ascii.eqb tar.TypeSymlink tar.TypeSymlink) with true. cbn match.
    destruct (extract.wrap_err _ _ s1) as [[[] | e1] s2] eqn:Hw.
    + apply IH.
    + intros [= <-]. right. exists "error creating symlink".
      eapply wrap_err_errors. by rewrite Hw.
Qed.

Lemma deferred_typed dest es :
  Forall link_typed (extract_spec.deferred dest es).
Proof.
  induction es as [| e es IH]; [constructor |]. cbn.
  destruct (extract_spec.is_link (tar.header e)) eqn:Hl; [| done].
  constructor; [| done]. unfold link_typed, extract_spec.link_of. cbn.
  unfold extract_spec.is_link in Hl.
  apply orb_true_iff in Hl as [H%Ascii.eqb_eq | H%Ascii.eqb_eq]; auto.
Qed.

(** X19. The queue the loop hands to [createLinks] holds links of the
    types [TypeLink] and [TypeSymlink] only, so [createLinks] never ends in
    its default case: it never returns the unsupported link type error. *)
Theorem createLinks_default_unreachable (es : list tar.entry)
    (next_err : option error) (dest : string) (ow : bool) (s : state)
    (links : list extract.link) :
  (extract.extractEntries es next_err dest ow [] s).1 = Ok links ->
  Forall link_typed links /\
  forall s', (extract.createLinks links dest ow s').1
             <> Err (Errorf "unsupported link type").
Proof.
  intros Hok.
  destruct (ExtractFacts.extractEntries_emits es next_err dest ow [] s)
    as (new & _ & _ & Hpost).
  rewrite Hok in Hpost. destruct Hpost as (_ & -> & _). cbn [app].
  split; [apply deferred_typed |].
  intros s' Herr.
  destruct (createLinks_errors _ dest ow s' _ (deferred_typed dest es) Herr)
    as [? | (? & ? & ?)]; done.
Qed.

Lemma createLinks_default_unreachable_witness :
  Forall link_typed [extract.mkLink tar.TypeSymlink "a" "/tmp/out/l"] /\
  forall s', (extract.createLinks
                [extract.mkLink tar.TypeSymlink "a" "/tmp/out/l"]
                "/tmp/out" true s').1
             <> Err (Errorf "unsupported link type").
Proof.
  apply (createLinks_default_unreachable
           [extract_spec.regular "b"; extract_spec.symbolic "l" "a"] None
           "/tmp/out" true extract_spec.tmp_out).
  vm_compute. reflexivity.
Defined.






End ExtractMore.
